(** * easegateway-types, package [pipelines]: the cross-pipeline request

    A shallow embedding of [pipelines/pipelines.go]: the constants, the
    [StatisticsKind] type, the [DownstreamRequest] object with its
    constructor, its accessors and the two operations that touch its
    response channel, [Respond] and [Close].

    [Respond] and [Close] are meant to be called from different
    goroutines, so the methods are embedded as small programs with a
    program counter per goroutine, and the object, the channel heap and
    the goroutines form a world that advances one statement at a time
    under an arbitrary interleaving.  Reads and writes of the field
    [responseChan] are taken to be sequentially consistent. *)

From Stdlib Require Import ZArith.
From stdpp Require Import base option list gmap strings.

Open Scope string_scope.
Open Scope list_scope.

(** ** Constants and [StatisticsKind] (lines 12 and 143-151) *)

Definition DATA_BUCKET_FOR_ALL_PLUGIN_INSTANCE : string := "*".

(** [type StatisticsKind string]: a defined type whose underlying type is
    [string]. *)
Definition StatisticsKind : Type := string.

Definition SuccessStatistics : StatisticsKind := "SuccessStatistics".
Definition FailureStatistics : StatisticsKind := "FailureStatistics".
Definition AllStatistics : StatisticsKind := "AllStatistics".

Definition STATISTICS_INDICATOR_FOR_ALL_PLUGIN_INSTANCE : string := "*".

(** ** Go values used by the request *)

(** A dynamic value held in an [interface{}]; only comparable values can
    be map keys, and these are the shapes the model needs. *)
Inductive iface :=
  | INil
  | IBool (b : bool)
  | IInt (n : Z)
  | IStr (s : string).

#[global] Instance iface_eq_dec : EqDecision iface.
Proof. solve_decision. Defined.

#[global] Instance iface_countable : Countable iface.
Proof.
  refine (inj_countable'
    (fun v => match v with
              | INil => inl (inl tt)
              | IBool b => inl (inr b)
              | IInt n => inr (inl n)
              | IStr s => inr (inr s)
              end)
    (fun e => match e with
              | inl (inl _) => INil
              | inl (inr b) => IBool b
              | inr (inl n) => IInt n
              | inr (inr s) => IStr s
              end) _).
  by intros [].
Defined.

(** A Go map value is a reference to a table in the heap; the nil map is
    [None]. *)
Abbreviation loc := nat.
Definition map_ref := option loc.
Abbreviation map_store := (gmap loc (gmap iface iface)).

(** [m[k] = v]: panics ([None]) on the nil map. *)
Definition map_assign (m : map_ref) (k v : iface) (st : map_store) : option map_store :=
  match m with
  | None => None
  | Some l =>
      match st !! l with
      | Some h => Some (<[l := <[k := v]> h]> st)
      | None => None
      end
  end.

(** [v, ok := m[k]]: absent ([None]) on the nil map as on a missing key. *)
Definition map_index (m : map_ref) (k : iface) (st : map_store) : option iface :=
  match m with
  | None => None
  | Some l =>
      match st !! l with
      | Some h => h !! k
      | None => None
      end
  end.

(** Go's [error]: [None] is [nil], [Some msg] an error made by
    [fmt.Errorf] with message [msg]. *)
Definition error := option string.

(** [task.TaskResultCode] is declared in package [task], outside this
    package; it is an unsigned integer code. *)
Definition TaskResultCode := N.

(** [UpstreamResponse] (lines 134-139). *)
Record UpstreamResponse := mkUpstreamResponse {
  resp_UpstreamPipelineName : string;
  resp_Data : map_ref;
  TaskError : error;
  resp_TaskResultCode : TaskResultCode
}.

(** [*UpstreamResponse]: the pointer may be nil. *)
Definition resp_ptr := option UpstreamResponse.

(** ** Channels *)

Abbreviation chan_id := nat.

(** A channel made by [make(chan T, cap)]: its capacity, the values
    waiting in its buffer and whether [close] was applied to it. *)
Record chan (A : Type) := mkChan {
  ch_cap : nat;
  ch_buf : list A;
  ch_closed : bool
}.
Arguments mkChan {A} _ _ _.
Arguments ch_cap {A} _.
Arguments ch_buf {A} _.
Arguments ch_closed {A} _.

Definition make_chan {A : Type} (cap : nat) : chan A := mkChan cap [] false.

Definition close_chan {A : Type} (ch : chan A) : chan A :=
  mkChan (ch_cap ch) (ch_buf ch) true.

Definition push_chan {A : Type} (v : A) (ch : chan A) : chan A :=
  mkChan (ch_cap ch) (ch_buf ch ++ [v]) (ch_closed ch).

Definition set_buf {A : Type} (b : list A) (ch : chan A) : chan A :=
  mkChan (ch_cap ch) b (ch_closed ch).

(** A receive can proceed without a partner: a buffered value is waiting
    or the channel is closed. *)
Definition recv_ready {A : Type} (ch : chan A) : bool :=
  match ch_buf ch with
  | _ :: _ => true
  | [] => ch_closed ch
  end.

Abbreviation chan_heap := (gmap chan_id (chan resp_ptr)).
Abbreviation sig_heap := (gmap chan_id (chan unit)).

(** ** [DownstreamRequest] (lines 59-64) *)

Record DownstreamRequest := mkDownstreamRequest {
  upstreamPipelineName : string;
  downstreamPipelineName : string;
  data : map_ref;
  responseChanLock : bool;            (* sync.Mutex: locked or not *)
  responseChan : option chan_id       (* nil is None *)
}.

(** [NewDownstreamRequest] (lines 66-80): [make(chan *UpstreamResponse, 0)]
    allocates a fresh channel in the heap. *)
Definition new_chan_id (chans : chan_heap) : chan_id := fresh (dom chans).

Definition NewDownstreamRequest (upstream downstream : string) (d : map_ref)
    (chans : chan_heap) : DownstreamRequest * chan_heap :=
  let c := new_chan_id chans in
  (mkDownstreamRequest upstream downstream d false (Some c),
   <[c := make_chan 0]> chans).

Definition UpstreamPipelineName (r : DownstreamRequest) : string :=
  upstreamPipelineName r.

Definition DownstreamPipelineName (r : DownstreamRequest) : string :=
  downstreamPipelineName r.

Definition Data (r : DownstreamRequest) : map_ref := data r.

(** [Response] (lines 120-122). *)
Definition Response (r : DownstreamRequest) : option chan_id := responseChan r.

Definition set_lock (b : bool) (r : DownstreamRequest) : DownstreamRequest :=
  mkDownstreamRequest (upstreamPipelineName r) (downstreamPipelineName r)
    (data r) b (responseChan r).

Definition set_responseChan (c : option chan_id) (r : DownstreamRequest) : DownstreamRequest :=
  mkDownstreamRequest (upstreamPipelineName r) (downstreamPipelineName r)
    (data r) (responseChanLock r) c.

(** The three error messages of [Respond]. *)
Definition err_was_closed (r : DownstreamRequest) : string :=
  "request from pipeline " +:+ downstreamPipelineName r +:+ " was closed".

Definition err_is_closed (r : DownstreamRequest) : string :=
  "request from pipeline " +:+ downstreamPipelineName r +:+ " is closed".

Definition err_cancelled : string := "response is canclled".

(** ** Goroutines

    A goroutine runs one call on the request.  Its program counter names
    the statement it executes next. *)

Abbreviation tid := nat.

(** [Respond] (lines 94-118). *)
Inductive respond_pc :=
  | RCheck                            (* line 95: if r.responseChan == nil *)
  | REnter                            (* line 109: the select evaluates its operands *)
  | RSelect (ch : option chan_id)     (* lines 109-114: waiting for a case to proceed *)
  | RReturned (err : error).

(** [Close] (lines 124-132). *)
Inductive close_pc :=
  | CLock                             (* line 125 *)
  | CTest                             (* line 128 *)
  | CClose                            (* line 129 *)
  | CNil                              (* line 130 *)
  | CUnlock (panicking : bool)        (* line 126, deferred *)
  | CReturned
  | CPanicked.

(** A consumer of the response, [v, ok := <-r.Response()]. *)
Inductive receive_pc :=
  | VCall                             (* calls r.Response() *)
  | VRecv (ch : option chan_id)       (* waiting to receive from the channel obtained *)
  | VGot (v : resp_ptr) (ok : bool).

Inductive thread :=
  | TRespond (response : resp_ptr) (cancel : option chan_id) (pc : respond_pc)
  | TClose (pc : close_pc)
  | TReceive (pc : receive_pc).

Inductive call :=
  | CallRespond (response : resp_ptr) (cancel : option chan_id)
  | CallClose
  | CallReceive.

Definition start (c : call) : thread :=
  match c with
  | CallRespond response cancel => TRespond response cancel RCheck
  | CallClose => TClose CLock
  | CallReceive => TReceive VCall
  end.

Inductive event :=
  | EvSend (i : tid) (c : chan_id) (v : resp_ptr)   (* a send of [i] completed *)
  | EvRecv (j : tid) (c : chan_id) (v : resp_ptr)   (* [j] received a sent value *)
  | EvClose (i : tid) (c : chan_id)                 (* close(c) took effect *)
  | EvRecover (i : tid)                             (* a panic caught by recover() *)
  | EvFault (i : tid).                              (* a panic left its goroutine *)

(** One statement of [Respond] that needs no partner.  In the select, the
    send case proceeds alone when the channel is closed (the send panics
    and the deferred function turns the panic into an error) or when its
    buffer has room; on a nil channel it never proceeds. *)
Definition Respond_step (i : tid) (r : DownstreamRequest) (chans : chan_heap)
    (response : resp_ptr) (pc : respond_pc)
    : option (respond_pc * chan_heap * list event) :=
  match pc with
  | RCheck =>
      match responseChan r with
      | None => Some (RReturned (Some (err_was_closed r)), chans, [])
      | Some _ => Some (REnter, chans, [])
      end
  | REnter => Some (RSelect (responseChan r), chans, [])
  | RSelect None => None
  | RSelect (Some c) =>
      match chans !! c with
      | None => None
      | Some ch =>
          if ch_closed ch then
            Some (RReturned (Some (err_is_closed r)), chans, [EvRecover i])
          else if decide (length (ch_buf ch) < ch_cap ch) then
            Some (RReturned None, <[c := push_chan response ch]> chans,
                  [EvSend i c response])
          else None
      end
  | RReturned _ => None
  end.

(** One statement of [Close].  [close] of a nil or of a closed channel
    panics; the deferred [Unlock] still runs, then the panic leaves the
    goroutine. *)
Definition Close_step (i : tid) (r : DownstreamRequest) (chans : chan_heap)
    (pc : close_pc)
    : option (close_pc * DownstreamRequest * chan_heap * list event) :=
  match pc with
  | CLock =>
      if responseChanLock r then None
      else Some (CTest, set_lock true r, chans, [])
  | CTest =>
      match responseChan r with
      | Some _ => Some (CClose, r, chans, [])
      | None => Some (CUnlock false, r, chans, [])
      end
  | CClose =>
      match responseChan r with
      | None => Some (CUnlock true, r, chans, [])
      | Some c =>
          match chans !! c with
          | None => None
          | Some ch =>
              if ch_closed ch then Some (CUnlock true, r, chans, [])
              else Some (CNil, r, <[c := close_chan ch]> chans, [EvClose i c])
          end
      end
  | CNil => Some (CUnlock false, set_responseChan None r, chans, [])
  | CUnlock panicking =>
      if panicking then Some (CPanicked, set_lock false r, chans, [EvFault i])
      else Some (CReturned, set_lock false r, chans, [])
  | CReturned => None
  | CPanicked => None
  end.

(** One statement of the consumer that needs no partner: a buffered value
    is taken, a closed and drained channel yields the zero value with
    [ok = false], a nil channel never yields. *)
Definition Receive_step (j : tid) (r : DownstreamRequest) (chans : chan_heap)
    (pc : receive_pc) : option (receive_pc * chan_heap * list event) :=
  match pc with
  | VCall => Some (VRecv (Response r), chans, [])
  | VRecv None => None
  | VRecv (Some c) =>
      match chans !! c with
      | None => None
      | Some ch =>
          match ch_buf ch with
          | v :: rest => Some (VGot v true, <[c := set_buf rest ch]> chans, [EvRecv j c v])
          | [] => if ch_closed ch then Some (VGot None false, chans, []) else None
          end
      end
  | VGot _ _ => None
  end.

(** ** The world *)

Record world := mkWorld {
  w_req : DownstreamRequest;
  w_chans : chan_heap;
  w_sigs : sig_heap;              (* the callers' cancel channels *)
  w_threads : list thread
}.

Inductive action :=
  | Spawn (c : call)              (* a goroutine starts a call on the request *)
  | Step (i : tid)                (* goroutine i executes its statement alone *)
  | Handoff (i j : tid)           (* sender i in select hands its value to receiver j *)
  | Cancel (i : tid)              (* the select of i takes the case <-cancel *)
  | SigHandoff (i : tid)          (* a caller sends on cancel straight into the select of i *)
  | SigClose (k : chan_id)        (* a caller closes its cancel channel *)
  | SigSend (k : chan_id).        (* a caller puts a value in the buffer of its cancel channel *)

Definition step_thread (i : tid) (w : world) : option (world * list event) :=
  match w_threads w !! i with
  | None => None
  | Some (TRespond response cancel pc) =>
      match Respond_step i (w_req w) (w_chans w) response pc with
      | None => None
      | Some (pc', chans', evs) =>
          Some (mkWorld (w_req w) chans' (w_sigs w)
                  (<[i := TRespond response cancel pc']> (w_threads w)), evs)
      end
  | Some (TClose pc) =>
      match Close_step i (w_req w) (w_chans w) pc with
      | None => None
      | Some (pc', r', chans', evs) =>
          Some (mkWorld r' chans' (w_sigs w) (<[i := TClose pc']> (w_threads w)), evs)
      end
  | Some (TReceive pc) =>
      match Receive_step i (w_req w) (w_chans w) pc with
      | None => None
      | Some (pc', chans', evs) =>
          Some (mkWorld (w_req w) chans' (w_sigs w)
                  (<[i := TReceive pc']> (w_threads w)), evs)
      end
  end.

(** The send case of the select meets a receiver waiting on the same open
    channel with nothing buffered: the value passes from hand to hand. *)
Definition step_handoff (i j : tid) (w : world) : option (world * list event) :=
  match w_threads w !! i, w_threads w !! j with
  | Some (TRespond response cancel (RSelect (Some c))),
    Some (TReceive (VRecv (Some c'))) =>
      match w_chans w !! c with
      | Some ch =>
          if decide (c = c') then
            if ch_closed ch then None
            else
              match ch_buf ch with
              | [] =>
                  Some (mkWorld (w_req w) (w_chans w) (w_sigs w)
                          (<[j := TReceive (VGot response true)]>
                             (<[i := TRespond response cancel (RReturned None)]>
                                (w_threads w))),
                        [EvSend i c response; EvRecv j c response])
              | _ :: _ => None
              end
          else None
      | None => None
      end
  | _, _ => None
  end.

(** The case [<-cancel] of the select proceeds when the cancel channel is
    closed or holds a buffered value; a nil cancel channel never does. *)
Definition step_cancel (i : tid) (w : world) : option (world * list event) :=
  match w_threads w !! i with
  | Some (TRespond response (Some k) (RSelect ch)) =>
      match w_sigs w !! k with
      | Some s =>
          if recv_ready s then
            Some (mkWorld (w_req w) (w_chans w)
                    (<[k := set_buf (tail (ch_buf s)) s]> (w_sigs w))
                    (<[i := TRespond response (Some k) (RReturned (Some err_cancelled))]>
                       (w_threads w)), [])
          else None
      | None => None
      end
  | _ => None
  end.

(** A caller's send on an open, empty cancel channel meets the select. *)
Definition step_sig_handoff (i : tid) (w : world) : option (world * list event) :=
  match w_threads w !! i with
  | Some (TRespond response (Some k) (RSelect ch)) =>
      match w_sigs w !! k with
      | Some s =>
          if recv_ready s then None
          else
            Some (mkWorld (w_req w) (w_chans w) (w_sigs w)
                    (<[i := TRespond response (Some k) (RReturned (Some err_cancelled))]>
                       (w_threads w)), [])
      | None => None
      end
  | _ => None
  end.

Definition step_sig_close (k : chan_id) (w : world) : option (world * list event) :=
  match w_sigs w !! k with
  | Some s =>
      if ch_closed s then None
      else Some (mkWorld (w_req w) (w_chans w) (<[k := close_chan s]> (w_sigs w))
                   (w_threads w), [])
  | None => None
  end.

Definition step_sig_send (k : chan_id) (w : world) : option (world * list event) :=
  match w_sigs w !! k with
  | Some s =>
      if ch_closed s then None
      else if decide (length (ch_buf s) < ch_cap s) then
        Some (mkWorld (w_req w) (w_chans w) (<[k := push_chan tt s]> (w_sigs w))
                (w_threads w), [])
      else None
  | None => None
  end.

(** [step w a] is [None] when [a] cannot proceed in [w]. *)
Definition step (w : world) (a : action) : option (world * list event) :=
  match a with
  | Spawn c =>
      Some (mkWorld (w_req w) (w_chans w) (w_sigs w) (w_threads w ++ [start c]), [])
  | Step i => step_thread i w
  | Handoff i j => step_handoff i j w
  | Cancel i => step_cancel i w
  | SigHandoff i => step_sig_handoff i w
  | SigClose k => step_sig_close k w
  | SigSend k => step_sig_send k w
  end.

(** A schedule is run from left to right; the events are collected in
    order. *)
Fixpoint run (w : world) (acts : list action) : option (world * list event) :=
  match acts with
  | [] => Some (w, [])
  | a :: rest =>
      match step w a with
      | None => None
      | Some (w1, evs1) =>
          match run w1 rest with
          | None => None
          | Some (w2, evs2) => Some (w2, evs1 ++ evs2)
          end
      end
  end.

(** The world just after [NewDownstreamRequest] returned: the request, the
    heap with its channel, the callers' cancel channels, no goroutine
    yet. *)
Definition init (upstream downstream : string) (d : map_ref)
    (chans : chan_heap) (sigs : sig_heap) : world :=
  let '(r, chans') := NewDownstreamRequest upstream downstream d chans in
  mkWorld r chans' sigs [].

(** ** Observations on worlds and event lists *)

Definition in_cs (pc : close_pc) : bool :=
  match pc with
  | CTest | CClose | CNil | CUnlock _ => true
  | CLock | CReturned | CPanicked => false
  end.

Definition is_closed (c : chan_id) (chans : chan_heap) : bool :=
  match chans !! c with
  | Some ch => ch_closed ch
  | None => false
  end.

Definition b2n (b : bool) : nat := if b then 1 else 0.

Definition is_close_ev (e : event) : bool :=
  match e with EvClose _ _ => true | _ => false end.

Definition is_fault_ev (e : event) : bool :=
  match e with EvFault _ => true | _ => false end.

Definition is_recv_ev (e : event) : bool :=
  match e with EvRecv _ _ _ => true | _ => false end.

Definition is_send_ev (e : event) : bool :=
  match e with EvSend _ _ _ => true | _ => false end.

Definition is_send_by (i : tid) (e : event) : bool :=
  match e with EvSend i' _ _ => bool_decide (i' = i) | _ => false end.

Definition is_recv_by (j : tid) (e : event) : bool :=
  match e with EvRecv j' _ _ => bool_decide (j' = j) | _ => false end.

Definition count (p : event → bool) (evs : list event) : nat :=
  length (filter (λ e, p e = true) evs).

Definition is_close_thread (t : thread) : bool :=
  match t with TClose _ => true | _ => false end.

Definition outside_cs (t : thread) : Prop :=
  match t with TClose pc => in_cs pc = false | _ => True end.

Definition th_responded (t : thread) : bool :=
  match t with TRespond _ _ (RReturned None) => true | _ => false end.

Definition th_received (t : thread) : bool :=
  match t with TReceive (VGot _ true) => true | _ => false end.

(** Goroutine [i] is a [Respond] call that returned nil. *)
Definition responded (i : tid) (w : world) : bool :=
  match w_threads w !! i with
  | Some t => th_responded t
  | None => false
  end.

(** Goroutine [j] is a consumer that received a sent value. *)
Definition received (j : tid) (w : world) : bool :=
  match w_threads w !! j with
  | Some t => th_received t
  | None => false
  end.

(** A goroutine that has no statement left, or waits on a nil channel
    with nothing else to wait for. *)
Definition stuck (t : thread) : bool :=
  match t with
  | TRespond _ _ (RReturned _) => true
  | TRespond _ None (RSelect None) => true
  | TClose CReturned | TClose CPanicked => true
  | TReceive (VGot _ _) | TReceive (VRecv None) => true
  | _ => false
  end.

(** The actions that can move goroutine [j]. *)
Definition moves (a : action) (j : tid) : bool :=
  match a with
  | Step i | Cancel i | SigHandoff i => bool_decide (i = j)
  | Handoff i1 i2 => bool_decide (i1 = j) || bool_decide (i2 = j)
  | Spawn _ | SigClose _ | SigSend _ => false
  end.

(** Events of one step that touch neither the channel nor a delivery. *)
Definition silent (evs : list event) : Prop :=
  evs = [] ∨ ∃ i, evs = [EvRecover i].

Definition is_close_call (a : action) : bool :=
  match a with Spawn CallClose => true | _ => false end.

(** A schedule in which no [Close] call is started. *)
Definition no_close_call (acts : list action) : bool :=
  forallb (λ a, negb (is_close_call a)) acts.

(** ** The invariant of every world reached from a fresh request *)

Section Invariant.

Variables (upstream downstream : string) (d : map_ref) (c0 : chan_id).

Definition thread_ok (r : DownstreamRequest) (ch : chan resp_ptr) (t : thread) : Prop :=
  match t with
  | TClose CLock => True
  | TClose CTest => responseChan r = Some c0 → ch_closed ch = false
  | TClose CClose => responseChan r = Some c0 ∧ ch_closed ch = false
  | TClose CNil => responseChan r = Some c0 ∧ ch_closed ch = true
  | TClose (CUnlock p) => p = false ∧ responseChan r = None
  | TClose CReturned => responseChan r = None
  | TClose CPanicked => False
  | TRespond _ _ (RSelect (Some c)) => c = c0
  | TRespond _ _ (RSelect None) => responseChan r = None
  | TReceive (VRecv (Some c)) => c = c0
  | TReceive (VRecv None) => responseChan r = None
  | _ => True
  end.

Record Inv (w : world) : Prop := mkInv {
  inv_upstream : upstreamPipelineName (w_req w) = upstream;
  inv_downstream : downstreamPipelineName (w_req w) = downstream;
  inv_data : data (w_req w) = d;
  inv_chan : ∃ ch, w_chans w !! c0 = Some ch ∧ ch_cap ch = 0 ∧ ch_buf ch = []
    ∧ match responseChan (w_req w) with
      | Some c => c = c0
      | None => ch_closed ch = true
      end
    ∧ (responseChanLock (w_req w) = false →
         responseChan (w_req w) = Some c0 → ch_closed ch = false)
    ∧ (∀ i t, w_threads w !! i = Some t → thread_ok (w_req w) ch t);
  inv_free : responseChanLock (w_req w) = false →
    ∀ i pc, w_threads w !! i = Some (TClose pc) → in_cs pc = false;
  inv_held : responseChanLock (w_req w) = true →
    ∃ i pc, w_threads w !! i = Some (TClose pc) ∧ in_cs pc = true;
  inv_mutex : ∀ i j pci pcj,
    w_threads w !! i = Some (TClose pci) → w_threads w !! j = Some (TClose pcj) →
    in_cs pci = true → in_cs pcj = true → i = j
}.

(** What one step can do to the response channel in a world that
    satisfies the invariant: nothing, close it, or pass one response
    from a sender to a receiver. *)
Inductive effect (w : world) (a : action) (w' : world) (evs : list event) : Prop :=
  | eff_silent :
      silent evs →
      w_chans w' = w_chans w →
      (∀ i, responded i w' = responded i w) →
      (∀ j, received j w' = received j w) →
      effect w a w' evs
  | eff_close i ch :
      a = Step i →
      evs = [EvClose i c0] →
      w_threads w !! i = Some (TClose CClose) →
      w_chans w !! c0 = Some ch → ch_closed ch = false →
      w_chans w' = <[c0 := close_chan ch]> (w_chans w) →
      (∀ i, responded i w' = responded i w) →
      (∀ j, received j w' = received j w) →
      effect w a w' evs
  | eff_handoff i j v k :
      a = Handoff i j →
      evs = [EvSend i c0 v; EvRecv j c0 v] →
      w_chans w' = w_chans w →
      w_threads w !! i = Some (TRespond v k (RSelect (Some c0))) →
      w_threads w !! j = Some (TReceive (VRecv (Some c0))) →
      w_threads w' = <[j := TReceive (VGot v true)]>
                       (<[i := TRespond v k (RReturned None)]> (w_threads w)) →
      effect w a w' evs.

(** The events of a run account for what changed between its two
    ends. *)
Definition accounts (w : world) (evs : list event) (w' : world) : Prop :=
  count is_fault_ev evs = 0
  ∧ b2n (is_closed c0 (w_chans w)) + count is_close_ev evs = b2n (is_closed c0 (w_chans w'))
  ∧ (∀ i, b2n (responded i w) + count (is_send_by i) evs = b2n (responded i w'))
  ∧ (∀ j, b2n (received j w) + count (is_recv_by j) evs = b2n (received j w'))
  ∧ count is_recv_ev evs = count is_send_ev evs.

End Invariant.

(** ** Sample schedules and worlds *)

Definition sched_close : list action :=
  [Spawn CallClose; Step 0; Step 0; Step 0; Step 0; Step 0].

Definition closed_world : world :=
  mkWorld (mkDownstreamRequest "ingest" "store" None false None)
    {[0 := mkChan 0 [] true]} ∅
    [TClose CReturned; TRespond None None RCheck].

Definition sched_two_closes : list action :=
  [Spawn CallClose; Spawn CallClose; Step 0; Step 0; Step 0; Step 0; Step 0;
   Step 1; Step 1; Step 1].

Definition two_closes_world (m : map_ref) : world :=
  mkWorld (mkDownstreamRequest "ingest" "store" m false None)
    {[0 := mkChan 0 [] true]} ∅ [TClose CReturned; TClose CReturned].

Definition sched_two_responses (r1 r2 : resp_ptr) : list action :=
  [Spawn (CallRespond r1 None); Spawn (CallRespond r2 None);
   Spawn CallReceive; Spawn CallReceive;
   Step 0; Step 0; Step 1; Step 1; Step 2; Step 3;
   Handoff 0 2; Handoff 1 3].

Definition two_responses_world : world :=
  mkWorld (mkDownstreamRequest "ingest" "store" None false (Some 0))
    {[0 := mkChan 0 [] false]} ∅
    [TRespond None None (RReturned None); TRespond None None (RReturned None);
     TReceive (VGot None true); TReceive (VGot None true)].

Definition two_responses_events : list event :=
  [EvSend 0 0 None; EvRecv 2 0 None; EvSend 1 0 None; EvRecv 3 0 None].

Definition sched_one_response (r : resp_ptr) : list action :=
  [Spawn (CallRespond r None); Spawn CallReceive; Step 0; Step 0; Step 1].

Definition rendezvous_world (r : resp_ptr) : world :=
  mkWorld (mkDownstreamRequest "ingest" "store" None false (Some 0))
    {[0 := mkChan 0 [] false]} ∅
    [TRespond r None (RSelect (Some 0)); TReceive (VRecv (Some 0))].

Definition handed_over_world : world :=
  mkWorld (mkDownstreamRequest "ingest" "store" None false (Some 0))
    {[0 := mkChan 0 [] false]} ∅
    [TRespond None None (RReturned None); TReceive (VGot None true)].



Definition sched_receive_around_close : list action :=
  [Spawn CallReceive; Step 0;
   Spawn CallClose; Step 1; Step 1; Step 1; Step 1; Step 1;
   Spawn CallReceive; Step 2].

Definition around_close_world : world :=
  mkWorld (mkDownstreamRequest "ingest" "store" None false None)
    {[0 := mkChan 0 [] true]} ∅
    [TReceive (VRecv (Some 0)); TClose CReturned; TReceive (VRecv None)].

(** [Close] runs while a [Respond] call waits in its select. *)
Definition sched_close_during_select : list action :=
  [Spawn (CallRespond None None); Step 0; Step 0;
   Spawn CallClose; Step 1; Step 1; Step 1].

Definition close_during_select_world : world :=
  mkWorld (mkDownstreamRequest "ingest" "store" None true (Some 0))
    {[0 := mkChan 0 [] true]} ∅
    [TRespond None None (RSelect (Some 0)); TClose CNil].

(** [Close] runs to its end between the test of line 95 and the select of
    a [Respond] call. *)
Definition sched_close_before_select : list action :=
  [Spawn (CallRespond None None); Step 0;
   Spawn CallClose; Step 1; Step 1; Step 1; Step 1; Step 1;
   Step 0].

Definition close_before_select_world : world :=
  mkWorld (mkDownstreamRequest "ingest" "store" None false None)
    {[0 := mkChan 0 [] true]} ∅
    [TRespond None None (RSelect None); TClose CReturned].

Definition store_with_id : map_store := {[7 := {[IStr "id" := IStr "x"]}]}.

Definition store_with_both : map_store :=
  {[7 := <[IStr "stored" := IBool true]> {[IStr "id" := IStr "x"]}]}.

(** ** How one goroutine moves

    [trans c0 w w' t t']: in a step from [w] to [w'], a goroutine of a
    world that satisfies the invariant goes from [t] to [t'].  The cases
    follow the statements of [Respond], [Close] and the consumer. *)
Inductive trans (c0 : chan_id) (w w' : world) : thread → thread → Prop :=
  | tr_was_closed v k :
      responseChan (w_req w) = None →
      trans c0 w w' (TRespond v k RCheck)
        (TRespond v k (RReturned (Some (err_was_closed (w_req w)))))
  | tr_body v k :
      responseChan (w_req w) ≠ None →
      trans c0 w w' (TRespond v k RCheck) (TRespond v k REnter)
  | tr_select v k :
      trans c0 w w' (TRespond v k REnter) (TRespond v k (RSelect (responseChan (w_req w))))
  | tr_recovered v k :
      is_closed c0 (w_chans w) = true →
      trans c0 w w' (TRespond v k (RSelect (Some c0)))
        (TRespond v k (RReturned (Some (err_is_closed (w_req w)))))
  | tr_sent v k j :
      is_closed c0 (w_chans w) = false →
      w_threads w !! j = Some (TReceive (VRecv (Some c0))) →
      w_threads w' !! j = Some (TReceive (VGot v true)) →
      trans c0 w w' (TRespond v k (RSelect (Some c0))) (TRespond v k (RReturned None))
  | tr_cancelled v k ch :
      trans c0 w w' (TRespond v (Some k) (RSelect ch))
        (TRespond v (Some k) (RReturned (Some err_cancelled)))
  | tr_close pc pc' :
      trans c0 w w' (TClose pc) (TClose pc')
  | tr_response :
      trans c0 w w' (TReceive VCall) (TReceive (VRecv (Response (w_req w))))
  | tr_recv_closed :
      is_closed c0 (w_chans w) = true →
      trans c0 w w' (TReceive (VRecv (Some c0))) (TReceive (VGot None false))
  | tr_received v k i :
      w_threads w !! i = Some (TRespond v k (RSelect (Some c0))) →
      w_threads w' !! i = Some (TRespond v k (RReturned None)) →
      trans c0 w w' (TReceive (VRecv (Some c0))) (TReceive (VGot v true)).

(** The statements a [Close] call between [Lock] and its return has
    left, the deferred [Unlock] included. *)
Definition close_left (pc : close_pc) : nat :=
  match pc with
  | CLock => 5
  | CTest => 4
  | CClose => 3
  | CNil => 2
  | CUnlock _ => 1
  | CReturned | CPanicked => 0
  end.

(** ** Predicates and samples for the further properties *)

Definition errors_ok (dn : string) (c0 : chan_id) (w : world) : Prop :=
  ∀ i v k e, w_threads w !! i = Some (TRespond v k (RReturned (Some e))) →
    e = "response is canclled"
    ∨ ((e = "request from pipeline " +:+ dn +:+ " was closed"
        ∨ e = "request from pipeline " +:+ dn +:+ " is closed")
       ∧ is_closed c0 (w_chans w) = true).

Definition delivered_ok (w : world) : Prop :=
  (∀ j v, w_threads w !! j = Some (TReceive (VGot v true)) →
     ∃ i k, w_threads w !! i = Some (TRespond v k (RReturned None)))
  ∧ (∀ i v k, w_threads w !! i = Some (TRespond v k (RReturned None)) →
       ∃ j, w_threads w !! j = Some (TReceive (VGot v true))).

Definition no_close_threads (w : world) : Prop :=
  ∀ i t, w_threads w !! i = Some t → is_close_thread t = false.

Definition sched_respond_across_close (v : resp_ptr) : list action :=
  [Spawn (CallRespond v None); Step 0;
   Spawn CallClose; Step 1; Step 1; Step 1; Step 1; Step 1;
   Step 0].

Definition sched_refused : list action :=
  sched_close ++ [Spawn (CallRespond None None); Step 1].

Definition refused_world : world :=
  mkWorld (mkDownstreamRequest "ingest" "store" None false None)
    {[0 := mkChan 0 [] true]} ∅
    [TClose CReturned;
     TRespond None None (RReturned (Some "request from pipeline store was closed"))].

Definition sched_waiting : list action :=
  [Spawn (CallRespond None None); Step 0; Step 0].

Definition waiting_world : world :=
  mkWorld (mkDownstreamRequest "ingest" "store" None false (Some 0))
    {[0 := mkChan 0 [] false]} ∅
    [TRespond None None (RSelect (Some 0))].

Definition heap_with_one : chan_heap := {[0 := make_chan 3]}.

Definition closed_beside_world : world :=
  mkWorld (mkDownstreamRequest "ingest" "store" None false None)
    {[0 := make_chan 3; 1 := mkChan 0 [] true]} ∅
    [TClose CReturned].

Definition waiting_beside_close_world : world :=
  mkWorld (mkDownstreamRequest "ingest" "store" None false (Some 0))
    {[0 := mkChan 0 [] false]} ∅
    [TRespond None None (RSelect (Some 0)); TClose CLock].

Definition refused_later_world : world :=
  mkWorld (mkDownstreamRequest "ingest" "store" None false None)
    {[0 := mkChan 0 [] true]} ∅
    [TClose CReturned;
     TRespond None None (RReturned (Some "request from pipeline store was closed"));
     TReceive (VRecv None)].

Definition close_nil_world : world :=
  mkWorld (mkDownstreamRequest "ingest" "store" None true None)
    {[0 := mkChan 0 [] true]} ∅
    [TRespond None None (RSelect (Some 0)); TClose (CUnlock false)].

Definition close_during_select_beside_world : world :=
  mkWorld (mkDownstreamRequest "ingest" "store" None true (Some 0))
    {[0 := mkChan 0 [] true]} ∅
    [TRespond None None (RSelect (Some 0)); TClose CNil; TRespond None None RCheck].

(** ** Predicates and samples for the cancel channels *)

(** The cancellation error is held only by calls given a cancel channel. *)
Definition cancels_ok (w : world) : Prop :=
  ∀ i v k, w_threads w !! i = Some (TRespond v k (RReturned (Some err_cancelled))) →
    k ≠ None.



Definition sched_signalled : list action :=
  [Spawn (CallRespond None (Some 0)); Step 0; Step 0; SigSend 0].

Definition signalled_world : world :=
  mkWorld (mkDownstreamRequest "ingest" "store" None false (Some 0))
    {[0 := mkChan 0 [] false]} {[0 := mkChan 1 [tt] false]}
    [TRespond None (Some 0) (RSelect (Some 0))].

Definition signal_taken_world : world :=
  mkWorld (mkDownstreamRequest "ingest" "store" None false (Some 0))
    {[0 := mkChan 0 [] false]} {[0 := mkChan 1 [] false]}
    [TRespond None (Some 0) (RReturned (Some "response is canclled"))].

(** * Proofs *)

(** ** List and heap facts *)

Lemma lookup_snoc_Some {A} (l : list A) (x y : A) (i : nat) :
  (l ++ [x]) !! i = Some y → l !! i = Some y ∨ (i = length l ∧ y = x).
Proof.
  intros H. apply lookup_app_Some in H as [H | [Hge H]]; [by left |].
  right. destruct (i - length l) as [| n] eqn:E; simpl in H.
  - split; [lia | congruence].
  - by rewrite lookup_nil in H.
Qed.

Lemma lookup_insert_Some_list {A} (l : list A) (i j : nat) (x y : A) :
  <[i := x]> l !! j = Some y → (i = j ∧ y = x) ∨ (i ≠ j ∧ l !! j = Some y).
Proof.
  intros H. destruct (decide (i = j)) as [-> | Hne].
  - left. split; [done |].
    assert (j < length l) as Hlt.
    { apply lookup_lt_Some in H. by rewrite length_insert in H. }
    rewrite list_lookup_insert_eq in H by done. congruence.
  - right. by rewrite list_lookup_insert_ne in H.
Qed.

Lemma observed_insert (w : world) (i0 : tid) (t t' : thread) r chans sigs :
  w_threads w !! i0 = Some t →
  th_responded t' = th_responded t → th_received t' = th_received t →
  let w' := mkWorld r chans sigs (<[i0 := t']> (w_threads w)) in
  (∀ i, responded i w' = responded i w) ∧ (∀ j, received j w' = received j w).
Proof.
  intros Hi Hr Hv. unfold responded, received. simpl.
  split; intros i; (destruct (decide (i0 = i)) as [<- |];
    [rewrite list_lookup_insert_eq by (by eapply lookup_lt_Some); by rewrite Hi
    | by rewrite list_lookup_insert_ne]).
Qed.

Lemma observed_snoc (w : world) (c : call) r chans sigs :
  let w' := mkWorld r chans sigs (w_threads w ++ [start c]) in
  (∀ i, responded i w' = responded i w) ∧ (∀ j, received j w' = received j w).
Proof.
  unfold responded, received. simpl.
  split; intros i; (destruct (decide (i < length (w_threads w)));
    [by rewrite lookup_app_l
    | rewrite lookup_app_r by lia; rewrite (lookup_ge_None_2 (w_threads w)) by lia;
      destruct (i - length (w_threads w)); simpl; [by destruct c | done]]).
Qed.

(** ** Facts that hold in every world *)

Lemma count_app (p : event → bool) (l1 l2 : list event) :
  count p (l1 ++ l2) = count p l1 + count p l2.
Proof. unfold count. by rewrite filter_app, length_app. Qed.

Lemma count_cons (p : event → bool) (e : event) (l : list event) :
  count p (e :: l) = b2n (p e) + count p l.
Proof.
  unfold count. rewrite filter_cons.
  case_decide as H; [by rewrite H |].
  by apply not_true_is_false in H as ->.
Qed.

Lemma count_nil (p : event → bool) : count p [] = 0.
Proof. done. Qed.

Lemma insert_keeps_stuck (l : list thread) (i0 i : tid) (t0 t' t : thread) :
  l !! i0 = Some t0 → stuck t0 = false →
  l !! i = Some t → stuck t = true →
  <[i0 := t']> l !! i = Some t.
Proof.
  intros H0 Hs0 Hi Hs. rewrite list_lookup_insert_ne; [done |].
  intros ->. congruence.
Qed.

(** A goroutine that is stuck is never moved, whatever the others do. *)
Lemma step_stuck w a w' evs i t :
  step w a = Some (w', evs) →
  w_threads w !! i = Some t → stuck t = true →
  w_threads w' !! i = Some t.
Proof.
  intros Hstep Hi Hs. destruct a as [c | i0 | i0 j0 | i0 | i0 | k | k]; simpl in Hstep.
  - injection Hstep as <- <-. simpl. by apply lookup_app_l_Some.
  - unfold step_thread in Hstep.
    destruct (w_threads w !! i0) as [[response cancel pc | pc | pc] |] eqn:H0; [| | | done].
    + destruct (Respond_step _ _ _ _ _) as [[[pc' chans'] evs'] |] eqn:Hr; [| done].
      injection Hstep as <- <-. simpl. eapply insert_keeps_stuck; eauto.
      by destruct pc as [| | [] |], cancel.
    + destruct (Close_step _ _ _ _) as [[[[pc' r'] chans'] evs'] |] eqn:Hr; [| done].
      injection Hstep as <- <-. simpl. eapply insert_keeps_stuck; eauto.
      by destruct pc.
    + destruct (Receive_step _ _ _ _) as [[[pc' chans'] evs'] |] eqn:Hr; [| done].
      injection Hstep as <- <-. simpl. eapply insert_keeps_stuck; eauto.
      by destruct pc as [| [] |].
  - unfold step_handoff in Hstep.
    destruct (w_threads w !! i0) as [[response cancel [| | [c |] |] | |] |] eqn:H0; try done.
    destruct (w_threads w !! j0) as [[| | [| [c' |] |]] |] eqn:Hj; try done.
    destruct (w_chans w !! c) as [ch |]; [| done].
    case_decide; [| done]. destruct (ch_closed ch); [done |].
    destruct (ch_buf ch); [| done]. injection Hstep as <- <-. simpl.
    rewrite list_lookup_insert_ne;
      [apply (insert_keeps_stuck _ _ _ _ _ _ H0); [by destruct cancel | done ..] |].
    intros ->. rewrite Hj in Hi. by injection Hi as <-.
  - unfold step_cancel in Hstep.
    destruct (w_threads w !! i0) as [[response [k |] [| | c |] | |] |] eqn:H0; try done.
    destruct (w_sigs w !! k) as [s |]; [| done].
    destruct (recv_ready s); [| done]. injection Hstep as <- <-. simpl.
    eapply insert_keeps_stuck; eauto.
  - unfold step_sig_handoff in Hstep.
    destruct (w_threads w !! i0) as [[response [k |] [| | c |] | |] |] eqn:H0; try done.
    destruct (w_sigs w !! k) as [s |]; [| done].
    destruct (recv_ready s); [done |]. injection Hstep as <- <-. simpl.
    eapply insert_keeps_stuck; eauto.
  - unfold step_sig_close in Hstep.
    destruct (w_sigs w !! k) as [s |]; [| done].
    destruct (ch_closed s); [done |]. by injection Hstep as <- <-.
  - unfold step_sig_send in Hstep.
    destruct (w_sigs w !! k) as [s |]; [| done].
    destruct (ch_closed s); [done |]. case_decide; [| done].
    by injection Hstep as <- <-.
Qed.

(** An action moves only the goroutines it names. *)
Lemma step_others w a w' evs j t :
  step w a = Some (w', evs) → moves a j = false →
  w_threads w !! j = Some t → w_threads w' !! j = Some t.
Proof.
  intros Hstep Hm Hj.
  destruct a as [c | i0 | i0 j0 | i0 | i0 | k | k]; simpl in Hstep, Hm.
  - injection Hstep as <- <-. simpl. by apply lookup_app_l_Some.
  - apply bool_decide_eq_false in Hm. unfold step_thread in Hstep.
    destruct (w_threads w !! i0) as [[response cancel pc | pc | pc] |]; [| | | done].
    + destruct (Respond_step _ _ _ _ _) as [[[pc' chans'] evs'] |]; [| done].
      injection Hstep as <- <-. simpl. by rewrite list_lookup_insert_ne.
    + destruct (Close_step _ _ _ _) as [[[[pc' r'] chans'] evs'] |]; [| done].
      injection Hstep as <- <-. simpl. by rewrite list_lookup_insert_ne.
    + destruct (Receive_step _ _ _ _) as [[[pc' chans'] evs'] |]; [| done].
      injection Hstep as <- <-. simpl. by rewrite list_lookup_insert_ne.
  - apply orb_false_iff in Hm as [H1%bool_decide_eq_false H2%bool_decide_eq_false].
    unfold step_handoff in Hstep.
    destruct (w_threads w !! i0) as [[response cancel [| | [c |] |] | |] |]; try done.
    destruct (w_threads w !! j0) as [[| | [| [c' |] |]] |]; try done.
    destruct (w_chans w !! c) as [ch |]; [| done].
    case_decide; [| done]. destruct (ch_closed ch); [done |].
    destruct (ch_buf ch); [| done]. injection Hstep as <- <-. simpl.
    by rewrite !list_lookup_insert_ne.
  - apply bool_decide_eq_false in Hm. unfold step_cancel in Hstep.
    destruct (w_threads w !! i0) as [[response [k |] [| | c |] | |] |]; try done.
    destruct (w_sigs w !! k) as [s |]; [| done].
    destruct (recv_ready s); [| done]. injection Hstep as <- <-. simpl.
    by rewrite list_lookup_insert_ne.
  - apply bool_decide_eq_false in Hm. unfold step_sig_handoff in Hstep.
    destruct (w_threads w !! i0) as [[response [k |] [| | c |] | |] |]; try done.
    destruct (w_sigs w !! k) as [s |]; [| done].
    destruct (recv_ready s); [done |]. injection Hstep as <- <-. simpl.
    by rewrite list_lookup_insert_ne.
  - unfold step_sig_close in Hstep.
    destruct (w_sigs w !! k) as [s |]; [| done].
    destruct (ch_closed s); [done |]. by injection Hstep as <- <-.
  - unfold step_sig_send in Hstep.
    destruct (w_sigs w !! k) as [s |]; [| done].
    destruct (ch_closed s); [done |]. case_decide; [| done].
    by injection Hstep as <- <-.
Qed.

(** The only writes to the request are those of [Close]: the lock is
    taken or released, or [responseChan] is set to nil. *)
Lemma step_req w a w' evs :
  step w a = Some (w', evs) →
  w_req w' = w_req w
  ∨ (∃ b, w_req w' = set_lock b (w_req w))
  ∨ w_req w' = set_responseChan None (w_req w).
Proof.
  intros Hstep. destruct a as [c | i0 | i0 j0 | i0 | i0 | k | k]; simpl in Hstep.
  - injection Hstep as <- <-. by left.
  - unfold step_thread in Hstep.
    destruct (w_threads w !! i0) as [[response cancel pc | pc | pc] |]; [| | | done].
    + destruct (Respond_step _ _ _ _ _) as [[[pc' chans'] evs'] |]; [| done].
      injection Hstep as <- <-. by left.
    + destruct (Close_step _ _ _ _) as [[[[pc' r'] chans'] evs'] |] eqn:Hc; [| done].
      injection Hstep as <- <-. simpl.
      destruct pc; simpl in Hc.
      * destruct (responseChanLock (w_req w)); [done |].
        injection Hc as <- <- <- <-. right. left. by eexists.
      * destruct (responseChan (w_req w)); injection Hc as <- <- <- <-; by left.
      * destruct (responseChan (w_req w)) as [c |]; [| injection Hc as <- <- <- <-; by left].
        destruct (w_chans w !! c) as [ch |]; [| done].
        destruct (ch_closed ch); injection Hc as <- <- <- <-; by left.
      * injection Hc as <- <- <- <-. by right; right.
      * destruct panicking; injection Hc as <- <- <- <-; right; left; by eexists.
      * done.
      * done.
    + destruct (Receive_step _ _ _ _) as [[[pc' chans'] evs'] |]; [| done].
      injection Hstep as <- <-. by left.
  - unfold step_handoff in Hstep.
    destruct (w_threads w !! i0) as [[response cancel [| | [c |] |] | |] |]; try done.
    destruct (w_threads w !! j0) as [[| | [| [c' |] |]] |]; try done.
    destruct (w_chans w !! c) as [ch |]; [| done].
    case_decide; [| done]. destruct (ch_closed ch); [done |].
    destruct (ch_buf ch); [| done]. injection Hstep as <- <-. by left.
  - unfold step_cancel in Hstep.
    destruct (w_threads w !! i0) as [[response [k |] [| | c |] | |] |]; try done.
    destruct (w_sigs w !! k) as [s |]; [| done].
    destruct (recv_ready s); [| done]. injection Hstep as <- <-. by left.
  - unfold step_sig_handoff in Hstep.
    destruct (w_threads w !! i0) as [[response [k |] [| | c |] | |] |]; try done.
    destruct (w_sigs w !! k) as [s |]; [| done].
    destruct (recv_ready s); [done |]. injection Hstep as <- <-. by left.
  - unfold step_sig_close in Hstep.
    destruct (w_sigs w !! k) as [s |]; [| done].
    destruct (ch_closed s); [done |]. injection Hstep as <- <-. by left.
  - unfold step_sig_send in Hstep.
    destruct (w_sigs w !! k) as [s |]; [| done].
    destruct (ch_closed s); [done |]. case_decide; [| done].
    injection Hstep as <- <-. by left.
Qed.

Lemma run_stuck acts : ∀ w w' evs i t,
  run w acts = Some (w', evs) →
  w_threads w !! i = Some t → stuck t = true →
  w_threads w' !! i = Some t.
Proof.
  induction acts as [| a acts IH]; intros w w' evs i t Hrun Hi Hs; simpl in Hrun.
  - by injection Hrun as <- <-.
  - destruct (step w a) as [[w1 evs1] |] eqn:Hstep; [| done].
    destruct (run w1 acts) as [[w2 evs2] |] eqn:Hr; [| done].
    injection Hrun as <- <-. eapply IH; eauto. by eapply step_stuck.
Qed.

Section InvariantProofs.

Variables (upstream downstream : string) (d : map_ref) (c0 : chan_id).

Local Abbreviation Inv := (Inv upstream downstream d c0).
Local Abbreviation thread_ok := (thread_ok c0).
Local Abbreviation accounts := (accounts c0).

Lemma Inv_Spawn w c :
  Inv w →
  Inv (mkWorld (w_req w) (w_chans w) (w_sigs w) (w_threads w ++ [start c])).
Proof.
  intros [Hu Hd Hm (ch & Hc & Hcap & Hbuf & Hrc & Hq & Hok) Hfree Hheld Hmx].
  split; simpl; try done.
  - exists ch. repeat split; try done.
    intros i t [H | [_ ->]]%lookup_snoc_Some; [by eapply Hok |].
    by destruct c.
  - intros Hl i pc [H | [_ H]]%lookup_snoc_Some; [by eapply Hfree |].
    by destruct c; simplify_eq/=.
  - intros Hl. destruct (Hheld Hl) as (i & pc & Hi & Hin).
    exists i, pc. split; [| done]. by apply lookup_app_l_Some.
  - intros i j pci pcj [Hi | [_ Hi]]%lookup_snoc_Some [Hj | [_ Hj]]%lookup_snoc_Some;
      try (destruct c; simplify_eq/=; done).
    by eapply Hmx.
Qed.

(** A goroutine that is not in [Close] moves on without touching the
    request or the response channels. *)
Lemma Inv_insert_other w i t t' sigs' :
  Inv w →
  w_threads w !! i = Some t →
  is_close_thread t = false → is_close_thread t' = false →
  (∀ ch, thread_ok (w_req w) ch t') →
  Inv (mkWorld (w_req w) (w_chans w) sigs' (<[i := t']> (w_threads w))).
Proof.
  intros [Hu Hd Hm (ch & Hc & Hcap & Hbuf & Hrc & Hq & Hok) Hfree Hheld Hmx] Hi Ht Ht' Hok'.
  split; simpl; try done.
  - exists ch. repeat split; try done.
    intros j tj [[_ ->] | [_ Hj]]%lookup_insert_Some_list; [done | by eapply Hok].
  - intros Hl j pc [[_ Hj] | [_ Hj]]%lookup_insert_Some_list; [by subst t' | by eapply Hfree].
  - intros Hl. destruct (Hheld Hl) as (j & pc & Hj & Hin).
    exists j, pc. split; [| done].
    rewrite list_lookup_insert_ne; [done |]. intros ->. by simplify_eq.
  - intros j k pcj pck [[_ Hj] | [_ Hj]]%lookup_insert_Some_list
      [[_ Hk] | [_ Hk]]%lookup_insert_Some_list; try by subst t'.
    by eapply Hmx.
Qed.

(** A statement of [Close] executed while holding the lock and keeping
    it. *)
Lemma Inv_cs_step w i pc pc' r' chans' ch ch' :
  Inv w →
  w_threads w !! i = Some (TClose pc) →
  in_cs pc = true → in_cs pc' = true →
  upstreamPipelineName r' = upstreamPipelineName (w_req w) →
  downstreamPipelineName r' = downstreamPipelineName (w_req w) →
  data r' = data (w_req w) →
  responseChanLock r' = responseChanLock (w_req w) →
  w_chans w !! c0 = Some ch →
  chans' !! c0 = Some ch' → ch_cap ch' = 0 → ch_buf ch' = [] →
  match responseChan r' with Some c => c = c0 | None => ch_closed ch' = true end →
  thread_ok r' ch' (TClose pc') →
  (∀ t, outside_cs t → thread_ok (w_req w) ch t → thread_ok r' ch' t) →
  Inv (mkWorld r' chans' (w_sigs w) (<[i := TClose pc']> (w_threads w))).
Proof.
  intros [Hu Hd Hm (ch1 & Hc & Hcap & Hbuf & Hrc & Hq & Hok) Hfree Hheld Hmx]
    Hi Hin Hin' Hu' Hd' Hm' Hl' Hch Hch' Hcap' Hbuf' Hrc' Hoki Hothers.
  assert (ch1 = ch) as -> by congruence.
  assert (responseChanLock (w_req w) = true) as Hl.
  { destruct (responseChanLock (w_req w)) eqn:E; [done |].
    by rewrite (Hfree eq_refl _ _ Hi) in Hin. }
  split; simpl; try congruence.
  - exists ch'. repeat split; try done; [congruence |].
    intros j tj [[_ ->] | [Hne Hj]]%lookup_insert_Some_list; [done |].
    apply Hothers; [| by eapply Hok].
    destruct tj as [| pcj |]; simpl; try done.
    destruct (in_cs pcj) eqn:E; [| done].
    by destruct Hne; eapply Hmx.
  - intros _. exists i, pc'. split; [| done].
    apply list_lookup_insert_eq. by eapply lookup_lt_Some.
  - intros j k pcj pck [[<- Hj] | [_ Hj]]%lookup_insert_Some_list
      [[<- Hk] | [_ Hk]]%lookup_insert_Some_list Hinj Hink; try done.
    + symmetry. by eapply Hmx.
    + by eapply Hmx.
    + by eapply Hmx.
Qed.

Lemma Inv_Close_step w i pc pc' r' chans' evs :
  Inv w →
  w_threads w !! i = Some (TClose pc) →
  Close_step i (w_req w) (w_chans w) pc = Some (pc', r', chans', evs) →
  Inv (mkWorld r' chans' (w_sigs w) (<[i := TClose pc']> (w_threads w))).
Proof.
  intros HI Hi Hstep.
  pose proof HI as [Hu Hd Hm (ch & Hc & Hcap & Hbuf & Hrc & Hq & Hok) Hfree Hheld Hmx].
  pose proof (Hok _ _ Hi) as Hoki.
  destruct pc; simpl in Hstep.
  - (* Lock *)
    destruct (responseChanLock (w_req w)) eqn:Hl; [done |].
    injection Hstep as <- <- <- <-.
    split; simpl; try done.
    + exists ch. repeat split; try done.
      intros j tj [[_ ->] | [_ Hj]]%lookup_insert_Some_list; simpl; [by auto |].
      by apply (Hok _ _ Hj).
    + intros _. exists i, CTest. split; [| done].
      apply list_lookup_insert_eq. by eapply lookup_lt_Some.
    + intros j k pcj pck [[<- Hj] | [_ Hj]]%lookup_insert_Some_list
        [[<- Hk] | [_ Hk]]%lookup_insert_Some_list Hinj Hink; try done.
      * by rewrite (Hfree eq_refl _ _ Hk) in Hink.
      * by rewrite (Hfree eq_refl _ _ Hj) in Hinj.
      * by rewrite (Hfree eq_refl _ _ Hj) in Hinj.
  - (* the test of line 128 *)
    simpl in Hoki.
    destruct (responseChan (w_req w)) as [c |] eqn:Hr;
      injection Hstep as <- <- <- <-.
    + subst c. eapply (Inv_cs_step w i CTest CClose); eauto.
      * by rewrite Hr.
      * simpl. rewrite Hr. by auto.
    + eapply (Inv_cs_step w i CTest (CUnlock false)); eauto.
      * by rewrite Hr.
      * by simpl.
  - (* close *)
    simpl in Hoki. destruct Hoki as [Hr Hopen].
    rewrite Hr, Hc, Hopen in Hstep. injection Hstep as <- <- <- <-.
    eapply (Inv_cs_step w i CClose CNil _ _ ch (close_chan ch)); eauto.
    + by rewrite lookup_insert_eq.
    + by rewrite Hr.
    + by simpl.
    + intros [? ? []| [] |[]] Hout; simpl; try done; try congruence.
  - (* r.responseChan = nil *)
    simpl in Hoki. destruct Hoki as [Hr Hcl]. injection Hstep as <- <- <- <-.
    eapply (Inv_cs_step w i CNil (CUnlock false) _ _ ch ch); eauto.
    + by simpl.
    + intros [? ? []| [] |[]] Hout; simpl; try done.
      all: by destruct ch0.
  - (* Unlock *)
    simpl in Hoki. destruct Hoki as [-> Hr]. injection Hstep as <- <- <- <-.
    split; simpl; try done.
    + exists ch. repeat split; try done.
      * congruence.
      * intros j tj [[_ ->] | [_ Hj]]%lookup_insert_Some_list; simpl; [by auto |].
        by apply (Hok _ _ Hj).
    + intros _ j pcj [[_ Hj] | [Hne Hj]]%lookup_insert_Some_list; [by simplify_eq |].
      destruct (in_cs pcj) eqn:E; [| done].
      by destruct Hne; eapply Hmx.
    + intros j k pcj pck [[<- Hj] | [_ Hj]]%lookup_insert_Some_list
        [[<- Hk] | [_ Hk]]%lookup_insert_Some_list Hinj Hink; try done.
      all: by eapply Hmx.
  - done.
  - done.
Qed.

Lemma Inv_sigs w sigs' :
  Inv w → Inv (mkWorld (w_req w) (w_chans w) sigs' (w_threads w)).
Proof. intros []. by split. Qed.

Lemma Inv_Respond_step w i response cancel pc pc' chans' evs :
  Inv w →
  w_threads w !! i = Some (TRespond response cancel pc) →
  Respond_step i (w_req w) (w_chans w) response pc = Some (pc', chans', evs) →
  chans' = w_chans w ∧ silent evs ∧
  th_responded (TRespond response cancel pc) = false ∧
  th_responded (TRespond response cancel pc') = false ∧
  Inv (mkWorld (w_req w) chans' (w_sigs w)
         (<[i := TRespond response cancel pc']> (w_threads w))).
Proof.
  intros HI Hi Hstep.
  pose proof HI as [_ _ _ (ch & Hc & Hcap & Hbuf & Hrc & Hq & Hok) _ _ _].
  pose proof (Hok _ _ Hi) as Hoki.
  destruct pc as [| | [c |] |]; simpl in Hstep, Hoki; try done.
  - destruct (responseChan (w_req w)); injection Hstep as <- <- <-;
      (do 4 (split; [done || by left |])); by eapply Inv_insert_other.
  - injection Hstep as <- <- <-. do 4 (split; [done || by left |]).
    eapply Inv_insert_other; eauto.
    intros ?. simpl. by destruct (responseChan (w_req w)).
  - subst c. rewrite Hc in Hstep. destruct (ch_closed ch).
    + injection Hstep as <- <- <-.
      split; [done |]. split; [right; by eexists |]. do 2 (split; [done |]).
      by eapply Inv_insert_other.
    + rewrite Hbuf, Hcap in Hstep.
      by rewrite decide_False in Hstep by (simpl; lia).
Qed.

Lemma Inv_Receive_step w j pc pc' chans' evs :
  Inv w →
  w_threads w !! j = Some (TReceive pc) →
  Receive_step j (w_req w) (w_chans w) pc = Some (pc', chans', evs) →
  chans' = w_chans w ∧ evs = [] ∧
  th_received (TReceive pc) = false ∧ th_received (TReceive pc') = false ∧
  Inv (mkWorld (w_req w) chans' (w_sigs w) (<[j := TReceive pc']> (w_threads w))).
Proof.
  intros HI Hj Hstep.
  pose proof HI as [_ _ _ (ch & Hc & Hcap & Hbuf & Hrc & Hq & Hok) _ _ _].
  pose proof (Hok _ _ Hj) as Hokj.
  destruct pc as [| [c |] |]; simpl in Hstep, Hokj; try done.
  - injection Hstep as <- <- <-. do 4 (split; [done |]).
    eapply Inv_insert_other; eauto.
    intros ?. unfold Response. simpl. by destruct (responseChan (w_req w)).
  - subst c. rewrite Hc, Hbuf in Hstep. destruct (ch_closed ch); [| done].
    injection Hstep as <- <- <-. do 4 (split; [done |]).
    by eapply Inv_insert_other.
Qed.

Lemma step_Inv w a w' evs :
  Inv w → step w a = Some (w', evs) → Inv w'.
Proof.
  intros HI Hstep. destruct a as [c | i | i j | i | i | k | k]; simpl in Hstep.
  - injection Hstep as <- <-. by apply Inv_Spawn.
  - unfold step_thread in Hstep.
    destruct (w_threads w !! i) as [[response cancel pc | pc | pc] |] eqn:Hi; [| | | done].
    + destruct (Respond_step _ _ _ _ _) as [[[pc' chans'] evs'] |] eqn:Hs; [| done].
      injection Hstep as <- <-. by eapply Inv_Respond_step.
    + destruct (Close_step _ _ _ _) as [[[[pc' r'] chans'] evs'] |] eqn:Hs; [| done].
      injection Hstep as <- <-. by eapply Inv_Close_step.
    + destruct (Receive_step _ _ _ _) as [[[pc' chans'] evs'] |] eqn:Hs; [| done].
      injection Hstep as <- <-. by eapply Inv_Receive_step.
  - unfold step_handoff in Hstep.
    destruct (w_threads w !! i) as [[response cancel [| | [c |] |] | |] |] eqn:Hi; try done.
    destruct (w_threads w !! j) as [[| | [| [c' |] |]] |] eqn:Hj; try done.
    destruct (w_chans w !! c) as [ch |]; [| done].
    case_decide; [| done]. destruct (ch_closed ch); [done |].
    destruct (ch_buf ch); [| done]. injection Hstep as <- <-.
    set (w1 := mkWorld (w_req w) (w_chans w) (w_sigs w)
                 (<[i := TRespond response cancel (RReturned None)]> (w_threads w))).
    assert (Inv w1) as H1 by (by eapply Inv_insert_other).
    assert (w_threads w1 !! j = Some (TReceive (VRecv (Some c')))) as Hj1.
    { simpl. rewrite list_lookup_insert_ne; [done |]. intros ->. congruence. }
    by apply (Inv_insert_other w1 j _ (TReceive (VGot response true)) (w_sigs w) H1 Hj1).
  - unfold step_cancel in Hstep.
    destruct (w_threads w !! i) as [[response [k |] [| | ch |] | |] |] eqn:Hi; try done.
    destruct (w_sigs w !! k) as [s |]; [| done].
    destruct (recv_ready s); [| done]. injection Hstep as <- <-.
    by eapply Inv_insert_other.
  - unfold step_sig_handoff in Hstep.
    destruct (w_threads w !! i) as [[response [k |] [| | ch |] | |] |] eqn:Hi; try done.
    destruct (w_sigs w !! k) as [s |]; [| done].
    destruct (recv_ready s); [done |]. injection Hstep as <- <-.
    by eapply Inv_insert_other.
  - unfold step_sig_close in Hstep.
    destruct (w_sigs w !! k) as [s |]; [| done].
    destruct (ch_closed s); [done |]. injection Hstep as <- <-.
    by apply Inv_sigs.
  - unfold step_sig_send in Hstep.
    destruct (w_sigs w !! k) as [s |]; [| done].
    destruct (ch_closed s); [done |]. case_decide; [| done].
    injection Hstep as <- <-. by apply Inv_sigs.
Qed.

Lemma step_effect w a w' evs :
  Inv w → step w a = Some (w', evs) → effect c0 w a w' evs.
Proof.
  intros HI Hstep.
  pose proof HI as [_ _ _ (ch & Hc & Hcap & Hbuf & Hrc & Hq & Hok) _ _ _].
  destruct a as [c | i | i j | i | i | k | k]; simpl in Hstep.
  - injection Hstep as <- <-.
    destruct (observed_snoc w c (w_req w) (w_chans w) (w_sigs w)).
    apply eff_silent; [by left | done ..].
  - unfold step_thread in Hstep.
    destruct (w_threads w !! i) as [[response cancel pc | pc | pc] |] eqn:Hi; [| | | done].
    + destruct (Respond_step _ _ _ _ _) as [[[pc' chans'] evs'] |] eqn:Hs; [| done].
      injection Hstep as <- <-.
      destruct (Inv_Respond_step _ _ _ _ _ _ _ _ HI Hi Hs) as (-> & Hsil & Hpc & Hpc' & _).
      destruct (observed_insert w i _ (TRespond response cancel pc')
                  (w_req w) (w_chans w) (w_sigs w) Hi) as [? ?];
        [by rewrite Hpc, Hpc' | reflexivity |].
      apply eff_silent; [exact Hsil | done | eassumption ..].
    + destruct (Close_step _ _ _ _) as [[[[pc' r'] chans'] evs'] |] eqn:Hs; [| done].
      injection Hstep as <- <-.
      destruct (observed_insert w i _ (TClose pc') r' chans' (w_sigs w) Hi)
        as [Hre Hrv]; [reflexivity | reflexivity |].
      pose proof (Hok _ _ Hi) as Hoki.
      destruct pc; simpl in Hs, Hoki; try done.
      * destruct (responseChanLock (w_req w)); [done |]. injection Hs as <- <- <- <-.
        apply eff_silent; [by left | done | exact Hre | exact Hrv].
      * destruct (responseChan (w_req w)); injection Hs as <- <- <- <-;
          (apply eff_silent; [by left | done | exact Hre | exact Hrv]).
      * destruct Hoki as [Hr Hopen]. rewrite Hr, Hc, Hopen in Hs.
        injection Hs as <- <- <- <-.
        by eapply eff_close.
      * injection Hs as <- <- <- <-.
        apply eff_silent; [by left | done | exact Hre | exact Hrv].
      * destruct Hoki as [-> _]. injection Hs as <- <- <- <-.
        apply eff_silent; [by left | done | exact Hre | exact Hrv].
    + destruct (Receive_step _ _ _ _) as [[[pc' chans'] evs'] |] eqn:Hs; [| done].
      injection Hstep as <- <-.
      destruct (Inv_Receive_step _ _ _ _ _ _ HI Hi Hs) as (-> & -> & Hpc & Hpc' & _).
      destruct (observed_insert w i _ (TReceive pc')
                  (w_req w) (w_chans w) (w_sigs w) Hi) as [? ?];
        [reflexivity | by rewrite Hpc, Hpc' |].
      apply eff_silent; [by left | done | eassumption ..].
  - unfold step_handoff in Hstep.
    destruct (w_threads w !! i) as [[response cancel [| | [c |] |] | |] |] eqn:Hi; try done.
    destruct (w_threads w !! j) as [[| | [| [c' |] |]] |] eqn:Hj; try done.
    pose proof (Hok _ _ Hi) as Hoki. simpl in Hoki. subst c.
    destruct (w_chans w !! c0) as [ch1 |]; [| done].
    case_decide; [subst c' | done]. destruct (ch_closed ch1); [done |].
    destruct (ch_buf ch1); [| done]. injection Hstep as <- <-.
    by eapply eff_handoff.
  - unfold step_cancel in Hstep.
    destruct (w_threads w !! i) as [[response [k |] [| | c |] | |] |] eqn:Hi; try done.
    destruct (w_sigs w !! k) as [s |]; [| done].
    destruct (recv_ready s); [| done]. injection Hstep as <- <-.
    destruct (observed_insert w i _
                (TRespond response (Some k) (RReturned (Some err_cancelled)))
                (w_req w) (w_chans w) (<[k := set_buf (tail (ch_buf s)) s]> (w_sigs w)) Hi)
      as [? ?]; [reflexivity | reflexivity |].
    apply eff_silent; [by left | done | eassumption ..].
  - unfold step_sig_handoff in Hstep.
    destruct (w_threads w !! i) as [[response [k |] [| | c |] | |] |] eqn:Hi; try done.
    destruct (w_sigs w !! k) as [s |]; [| done].
    destruct (recv_ready s); [done |]. injection Hstep as <- <-.
    destruct (observed_insert w i _
                (TRespond response (Some k) (RReturned (Some err_cancelled)))
                (w_req w) (w_chans w) (w_sigs w) Hi)
      as [? ?]; [reflexivity | reflexivity |].
    apply eff_silent; [by left | done | eassumption ..].
  - unfold step_sig_close in Hstep.
    destruct (w_sigs w !! k) as [s |]; [| done].
    destruct (ch_closed s); [done |]. injection Hstep as <- <-.
    by apply eff_silent; [left | ..].
  - unfold step_sig_send in Hstep.
    destruct (w_sigs w !! k) as [s |]; [| done].
    destruct (ch_closed s); [done |]. case_decide; [| done].
    injection Hstep as <- <-. by apply eff_silent; [left | ..].
Qed.

Lemma step_accounts w a w' evs :
  Inv w → step w a = Some (w', evs) → accounts w evs w'.
Proof.
  intros HI Hstep.
  destruct (step_effect _ _ _ _ HI Hstep)
    as [Hsil Hch Hre Hrv
       | i ch -> -> Hi Hc Hopen Hch Hre Hrv
       | i j v k -> -> Hch Hi Hj Hth].
  - assert (∀ p, p = is_fault_ev ∨ p = is_close_ev ∨ p = is_recv_ev ∨ p = is_send_ev
                 ∨ (∃ i, p = is_send_by i) ∨ (∃ j, p = is_recv_by j) →
                 count p evs = 0) as H0.
    { intros p Hp. destruct Hsil as [-> | [i ->]]; [done |].
      by destruct Hp as [-> | [-> | [-> | [-> | [[? ->] | [? ->]]]]]]. }
    unfold accounts. rewrite Hch, !H0 by eauto 10.
    repeat split; try done.
    + intros i. rewrite Hre, H0 by eauto 10. lia.
    + intros j. rewrite Hrv, H0 by eauto 10. lia.
  - unfold accounts, is_closed. rewrite Hch, Hc, Hopen, lookup_insert_eq. simpl.
    repeat split; try done.
    + intros i'. rewrite Hre, count_cons, count_nil. simpl. lia.
    + intros j'. rewrite Hrv, count_cons, count_nil. simpl. lia.
  - assert (i ≠ j) as Hne by (intros ->; congruence).
    assert (i < length (w_threads w)) as Hil by (by eapply lookup_lt_Some).
    assert (j < length (w_threads w)) as Hjl by (by eapply lookup_lt_Some).
    unfold accounts. rewrite Hch. repeat split; try done.
    + intros i'. unfold responded. rewrite Hth, !count_cons, count_nil. simpl.
      destruct (decide (i = i')) as [<- | Hi'].
      * rewrite list_lookup_insert_ne, list_lookup_insert_eq, Hi by done.
        by rewrite bool_decide_true.
      * rewrite bool_decide_false by done.
        destruct (decide (j = i')) as [<- |].
        -- by rewrite list_lookup_insert_eq, Hj by (by rewrite length_insert).
        -- rewrite !list_lookup_insert_ne by done. simpl. lia.
    + intros j'. unfold received. rewrite Hth, !count_cons, count_nil. simpl.
      destruct (decide (j = j')) as [<- | Hj'].
      * rewrite list_lookup_insert_eq, Hj by (by rewrite length_insert).
        by rewrite bool_decide_true.
      * rewrite bool_decide_false by done.
        rewrite list_lookup_insert_ne by done.
        destruct (decide (i = j')) as [<- |].
        -- by rewrite list_lookup_insert_eq, Hi by done.
        -- rewrite list_lookup_insert_ne by done. simpl. lia.
Qed.

Lemma accounts_refl w : accounts w [] w.
Proof. unfold accounts, count. simpl. repeat split; intros; lia. Qed.

Lemma accounts_trans w1 evs1 w2 evs2 w3 :
  accounts w1 evs1 w2 → accounts w2 evs2 w3 → accounts w1 (evs1 ++ evs2) w3.
Proof.
  intros (Hf1 & Hc1 & Hs1 & Hr1 & He1) (Hf2 & Hc2 & Hs2 & Hr2 & He2).
  unfold accounts. rewrite !count_app. repeat split; try lia.
  - intros i. rewrite count_app. specialize (Hs1 i). specialize (Hs2 i). lia.
  - intros j. rewrite count_app. specialize (Hr1 j). specialize (Hr2 j). lia.
Qed.

Lemma run_Inv acts : ∀ w w' evs,
  Inv w → run w acts = Some (w', evs) → Inv w'.
Proof.
  induction acts as [| a acts IH]; intros w w' evs HI Hrun; simpl in Hrun.
  - by injection Hrun as <- <-.
  - destruct (step w a) as [[w1 evs1] |] eqn:Hs; [| done].
    destruct (run w1 acts) as [[w2 evs2] |] eqn:Hr; [| done].
    injection Hrun as <- <-. eapply IH; [| done]. by eapply step_Inv.
Qed.

Lemma run_accounts acts : ∀ w w' evs,
  Inv w → run w acts = Some (w', evs) → accounts w evs w'.
Proof.
  induction acts as [| a acts IH]; intros w w' evs HI Hrun; simpl in Hrun.
  - injection Hrun as <- <-. apply accounts_refl.
  - destruct (step w a) as [[w1 evs1] |] eqn:Hs; [| done].
    destruct (run w1 acts) as [[w2 evs2] |] eqn:Hr; [| done].
    injection Hrun as <- <-. eapply accounts_trans.
    + by eapply step_accounts.
    + eapply IH; [| done]. by eapply step_Inv.
Qed.

(** After the close took effect, no step touches the channel heap or
    the request, the lock apart. *)
Lemma step_after_close w a w' evs :
  Inv w → responseChan (w_req w) = None → step w a = Some (w', evs) →
  responseChan (w_req w') = None
  ∧ w_chans w' = w_chans w
  ∧ set_lock false (w_req w') = set_lock false (w_req w).
Proof.
  intros HI Hnil Hstep. split; [| split].
  - destruct (step_req _ _ _ _ Hstep) as [-> | [[b ->] | ->]]; done.
  - destruct (step_effect _ _ _ _ HI Hstep)
      as [_ Hch _ _ | i ch _ _ Hi _ _ _ _ _ | i j v k _ _ Hch _ _ _]; try done.
    destruct HI as [_ _ _ (ch1 & _ & _ & _ & _ & _ & Hok) _ _ _].
    destruct (Hok _ _ Hi) as [Hr _]. congruence.
  - destruct (step_req _ _ _ _ Hstep) as [-> | [[b ->] | ->]]; try done.
    destruct (w_req w); simpl in *. by subst.
Qed.

Lemma run_after_close acts : ∀ w w' evs,
  Inv w → responseChan (w_req w) = None → run w acts = Some (w', evs) →
  responseChan (w_req w') = None
  ∧ w_chans w' = w_chans w
  ∧ set_lock false (w_req w') = set_lock false (w_req w).
Proof.
  induction acts as [| a acts IH]; intros w w' evs HI Hnil Hrun; simpl in Hrun.
  - by injection Hrun as <- <-.
  - destruct (step w a) as [[w1 evs1] |] eqn:Hs; [| done].
    destruct (run w1 acts) as [[w2 evs2] |] eqn:Hr; [| done].
    injection Hrun as <- <-.
    destruct (step_after_close _ _ _ _ HI Hnil Hs) as (Hnil1 & Hch1 & Hreq1).
    destruct (IH _ _ _ (step_Inv _ _ _ _ HI Hs) Hnil1 Hr) as (? & ? & ?).
    repeat split; congruence.
Qed.

End InvariantProofs.

(** ** Worlds reached from a fresh request *)

Lemma init_Inv u dn m chans sigs :
  Inv u dn m (new_chan_id chans) (init u dn m chans sigs).
Proof.
  unfold init, NewDownstreamRequest. split; simpl; try done.
  exists (make_chan 0). rewrite lookup_insert_eq. by repeat split.
Qed.

Lemma reach_Inv u dn m chans sigs acts w evs :
  run (init u dn m chans sigs) acts = Some (w, evs) →
  Inv u dn m (new_chan_id chans) w.
Proof. intros Hrun. eapply run_Inv; [apply init_Inv | done]. Qed.

(** Once [Close] has returned, the field [responseChan] is nil. *)
Lemma returned_nil u dn m c0 w i :
  Inv u dn m c0 w → w_threads w !! i = Some (TClose CReturned) →
  responseChan (w_req w) = None.
Proof.
  intros [_ _ _ (ch & _ & _ & _ & _ & _ & Hok) _ _ _] Hi. exact (Hok _ _ Hi).
Qed.

(** * The claims *)

(** C1.  After a [Close()] has returned, a [Respond] call that starts
    finds the field nil at line 95: its first statement can run, it
    returns the error "request from pipeline <downstream> was closed",
    no channel is touched, no event (delivery, panic) occurs, and no
    other action can move the call. *)
Theorem Respond_after_Close_returns_error
    u dn m chans sigs acts w evs i j response cancel :
  run (init u dn m chans sigs) acts = Some (w, evs) →
  w_threads w !! i = Some (TClose CReturned) →
  w_threads w !! j = Some (TRespond response cancel RCheck) →
  step w (Step j) =
    Some (mkWorld (w_req w) (w_chans w) (w_sigs w)
            (<[j := TRespond response cancel
                      (RReturned (Some ("request from pipeline " +:+ dn +:+ " was closed")))]>
               (w_threads w)), [])
  ∧ ∀ a w' evs', step w a = Some (w', evs') →
      w_threads w' !! j ≠ w_threads w !! j → a = Step j.
Proof.
  intros Hrun Hi Hj. pose proof (reach_Inv _ _ _ _ _ _ _ _ Hrun) as HI.
  pose proof (returned_nil _ _ _ _ _ _ HI Hi) as Hnil.
  split.
  - simpl. unfold step_thread. rewrite Hj. simpl. rewrite Hnil.
    unfold err_was_closed. by rewrite (inv_downstream _ _ _ _ _ HI).
  - intros a w' evs' Hstep Hne.
    destruct (moves a j) eqn:Hm.
    + destruct a as [c | i0 | i0 j0 | i0 | i0 | k | k]; simpl in Hm; try done.
      * by apply bool_decide_eq_true in Hm as ->.
      * exfalso. simpl in Hstep. unfold step_handoff in Hstep.
        apply orb_true_iff in Hm as [->%bool_decide_eq_true | ->%bool_decide_eq_true].
        -- by rewrite Hj in Hstep.
        -- rewrite Hj in Hstep.
           by destruct (w_threads w !! i0) as [[? ? [| | [] |] | |] |].
      * exfalso. apply bool_decide_eq_true in Hm as ->. simpl in Hstep.
        unfold step_cancel in Hstep. rewrite Hj in Hstep. by destruct cancel.
      * exfalso. apply bool_decide_eq_true in Hm as ->. simpl in Hstep.
        unfold step_sig_handoff in Hstep. rewrite Hj in Hstep. by destruct cancel.
    + destruct Hne. rewrite Hj. by eapply step_others.
Qed.

Lemma Respond_after_Close_witness :
  run (init "ingest" "store" None ∅ ∅) (sched_close ++ [Spawn (CallRespond None None)])
    = Some (closed_world, [EvClose 0 0])
  ∧ step closed_world (Step 1) =
      Some (mkWorld (w_req closed_world) (w_chans closed_world) (w_sigs closed_world)
              (<[1 := TRespond None None
                        (RReturned (Some "request from pipeline store was closed"))]>
                 (w_threads closed_world)), []).
Proof.
  assert (run (init "ingest" "store" None ∅ ∅)
            (sched_close ++ [Spawn (CallRespond None None)])
          = Some (closed_world, [EvClose 0 0])) as Hrun by (vm_compute; reflexivity).
  split; [exact Hrun |].
  apply (Respond_after_Close_returns_error "ingest" "store" None ∅ ∅
           (sched_close ++ [Spawn (CallRespond None None)]) closed_world [EvClose 0 0]
           0 1 None None Hrun); vm_compute; reflexivity.
Defined.

(** C2.  Whatever calls run on a request and however they interleave,
    no panic leaves a goroutine and no [Close] call ends panicked; the
    channel is closed at most once, and exactly once as soon as one
    [Close] has returned; from then on [responseChan] stays nil and no
    later step changes the channel heap or the request (the lock is
    taken and released by later [Close] calls and is free whenever no
    [Close] is between its [Lock] and its [Unlock]). *)
Theorem Close_takes_effect_once u dn m chans sigs acts w evs :
  run (init u dn m chans sigs) acts = Some (w, evs) →
  count is_fault_ev evs = 0
  ∧ (∀ i, w_threads w !! i ≠ Some (TClose CPanicked))
  ∧ count is_close_ev evs = b2n (is_closed (new_chan_id chans) (w_chans w))
  ∧ (count is_close_ev evs ≤ 1)%nat
  ∧ (responseChanLock (w_req w) = true ↔
       ∃ i pc, w_threads w !! i = Some (TClose pc) ∧ in_cs pc = true)
  ∧ ((∃ i, w_threads w !! i = Some (TClose CReturned)) →
       count is_close_ev evs = 1
       ∧ responseChan (w_req w) = None
       ∧ ∀ acts' w' evs', run w acts' = Some (w', evs') →
           count is_close_ev evs' = 0
           ∧ responseChan (w_req w') = None
           ∧ w_chans w' = w_chans w
           ∧ set_lock false (w_req w') = set_lock false (w_req w)).
Proof.
  intros Hrun. pose proof (reach_Inv _ _ _ _ _ _ _ _ Hrun) as HI.
  pose proof (run_accounts _ _ _ _ _ _ _ _ (init_Inv u dn m chans sigs) Hrun)
    as (Hf & Hc & _).
  assert (is_closed (new_chan_id chans) (w_chans (init u dn m chans sigs)) = false) as H0.
  { unfold is_closed, init, NewDownstreamRequest. simpl. by rewrite lookup_insert_eq. }
  rewrite H0 in Hc. simpl in Hc.
  split; [done |]. split.
  { intros i Hi. destruct HI as [_ _ _ (ch & _ & _ & _ & _ & _ & Hok) _ _ _].
    exact (Hok _ _ Hi). }
  split; [done |]. split.
  { rewrite Hc. by destruct (is_closed _ _); simpl; lia. }
  split.
  { split; [apply (inv_held _ _ _ _ _ HI) |].
    intros (i & pc & Hi & Hin). destruct (responseChanLock (w_req w)) eqn:E; [done |].
    by rewrite (inv_free _ _ _ _ _ HI E _ _ Hi) in Hin. }
  intros [i Hi]. pose proof (returned_nil _ _ _ _ _ _ HI Hi) as Hnil.
  split.
  { rewrite Hc. destruct HI as [_ _ _ (ch & Hch & _ & _ & Hrc & _) _ _ _].
    rewrite Hnil in Hrc. unfold is_closed. by rewrite Hch, Hrc. }
  split; [done |].
  intros acts' w' evs' Hrun'.
  destruct (run_after_close _ _ _ _ _ _ _ _ HI Hnil Hrun') as (Hnil' & Hch' & Hreq').
  repeat split; try done.
  pose proof (run_accounts _ _ _ _ _ _ _ _ HI Hrun') as (_ & Hc' & _).
  rewrite Hch' in Hc'. lia.
Qed.

Lemma Close_takes_effect_once_witness :
  run (init "ingest" "store" None ∅ ∅) sched_two_closes
    = Some (two_closes_world None, [EvClose 0 0])
  ∧ count is_fault_ev [EvClose 0 0] = 0
  ∧ (count is_close_ev [EvClose 0 0] ≤ 1)%nat.
Proof.
  assert (run (init "ingest" "store" None ∅ ∅) sched_two_closes
          = Some (two_closes_world None, [EvClose 0 0])) as Hrun
    by (vm_compute; reflexivity).
  split; [exact Hrun |].
  pose proof (Close_takes_effect_once "ingest" "store" None ∅ ∅ sched_two_closes
                (two_closes_world None) [EvClose 0 0] Hrun) as (Hf & _ & _ & Hle & _).
  by split.
Defined.

(** C3, as stated, fails: two [Respond] calls on one request, each met by
    a receive, deliver two responses, with no [Close] involved. *)
Lemma two_responses_delivered :
  ¬ (∀ u dn m chans sigs acts w evs,
       no_close_call acts = true →
       run (init u dn m chans sigs) acts = Some (w, evs) →
       (count is_recv_ev evs ≤ 1)%nat).
Proof.
  intros H.
  assert (run (init "ingest" "store" None ∅ ∅) (sched_two_responses None None)
          = Some (two_responses_world, two_responses_events)) as Hrun
    by (vm_compute; reflexivity).
  specialize (H "ingest" "store" None ∅ ∅ (sched_two_responses None None)
                two_responses_world two_responses_events eq_refl Hrun).
  vm_compute in H. lia.
Qed.

(** C3, amended.  Each [Respond] call delivers at most one response:
    exactly one send completes for it when it returned nil and none
    otherwise; each consumer receives at most one response; and the
    responses received are as many as the sends completed. *)
Theorem Respond_delivers_once_per_call u dn m chans sigs acts w evs :
  run (init u dn m chans sigs) acts = Some (w, evs) →
  (∀ i, count (is_send_by i) evs = b2n (responded i w))
  ∧ (∀ j, count (is_recv_by j) evs = b2n (received j w))
  ∧ count is_recv_ev evs = count is_send_ev evs.
Proof.
  intros Hrun.
  pose proof (run_accounts _ _ _ _ _ _ _ _ (init_Inv u dn m chans sigs) Hrun)
    as (_ & _ & Hs & Hr & He).
  repeat split; [intros i; by rewrite <- Hs | intros j; by rewrite <- Hr | done].
Qed.

Lemma Respond_delivers_once_per_call_witness :
  run (init "ingest" "store" None ∅ ∅) (sched_two_responses None None)
    = Some (two_responses_world, two_responses_events)
  ∧ count (is_send_by 1) two_responses_events = b2n (responded 1 two_responses_world).
Proof.
  assert (run (init "ingest" "store" None ∅ ∅) (sched_two_responses None None)
          = Some (two_responses_world, two_responses_events)) as Hrun
    by (vm_compute; reflexivity).
  split; [exact Hrun |].
  exact (proj1 (Respond_delivers_once_per_call "ingest" "store" None ∅ ∅
                  (sched_two_responses None None) two_responses_world
                  two_responses_events Hrun) 1).
Defined.

(** C4.  [NewDownstreamRequest] allocates exactly one channel, fresh in
    the heap, open, of capacity zero, and stores it in [responseChan].
    In every world reached from it the channel still has capacity zero
    and an empty buffer, and a step in which a [Respond] call completes
    its send (it returns nil) is a hand-off: in the same step a consumer
    that was waiting to receive on this channel takes the response. *)
Theorem NewDownstreamRequest_channel_is_unbuffered u dn m chans sigs :
  let c := new_chan_id chans in
  chans !! c = None
  ∧ NewDownstreamRequest u dn m chans =
      (mkDownstreamRequest u dn m false (Some c), <[c := mkChan 0 [] false]> chans)
  ∧ ∀ acts w evs, run (init u dn m chans sigs) acts = Some (w, evs) →
      (∃ ch, w_chans w !! c = Some ch ∧ ch_cap ch = 0 ∧ ch_buf ch = [])
      ∧ ∀ a w' evs' i, step w a = Some (w', evs') →
          responded i w = false → responded i w' = true →
          ∃ j v k, a = Handoff i j
            ∧ w_threads w !! i = Some (TRespond v k (RSelect (Some c)))
            ∧ w_threads w !! j = Some (TReceive (VRecv (Some c)))
            ∧ w_threads w' !! j = Some (TReceive (VGot v true))
            ∧ evs' = [EvSend i c v; EvRecv j c v].
Proof.
  intros c. split; [| split; [done |]].
  { subst c. unfold new_chan_id. apply (not_elem_of_dom (D := gset nat)). apply is_fresh. }
  intros acts w evs Hrun. pose proof (reach_Inv _ _ _ _ _ _ _ _ Hrun) as HI. split.
  { destruct HI as [_ _ _ (ch & Hch & Hcap & Hbuf & _) _ _ _]. by exists ch. }
  intros a w' evs' i Hstep Hno Hyes.
  destruct (step_effect _ _ _ _ _ _ _ _ HI Hstep)
    as [_ _ Hre _ | i0 ch _ _ _ _ _ _ Hre _ | i0 j0 v k -> -> _ Hi Hj Hth].
  - rewrite Hre in Hyes. congruence.
  - rewrite Hre in Hyes. congruence.
  - assert (i0 ≠ j0) as Hne by (intros ->; congruence).
    assert (j0 < length (w_threads w)) as Hjl by (by eapply lookup_lt_Some).
    unfold responded in Hno, Hyes. rewrite Hth in Hyes.
    destruct (decide (j0 = i)) as [<- | Hji].
    { rewrite list_lookup_insert_eq in Hyes by (by rewrite length_insert). done. }
    rewrite list_lookup_insert_ne in Hyes by done.
    destruct (decide (i0 = i)) as [<- | Hii].
    + exists j0, v, k. repeat split; try done.
      rewrite Hth. apply list_lookup_insert_eq. by rewrite length_insert.
    + rewrite list_lookup_insert_ne in Hyes by done. congruence.
Qed.

Lemma NewDownstreamRequest_channel_is_unbuffered_witness :
  run (init "ingest" "store" None ∅ ∅) (sched_one_response None)
    = Some (rendezvous_world None, [])
  ∧ ∃ j v k, Handoff 0 1 = Handoff 0 j
      ∧ w_threads (rendezvous_world None) !! 0 = Some (TRespond v k (RSelect (Some 0)))
      ∧ w_threads (rendezvous_world None) !! j = Some (TReceive (VRecv (Some 0)))
      ∧ w_threads handed_over_world !! j = Some (TReceive (VGot v true))
      ∧ [EvSend 0 0 None; EvRecv 1 0 None] = [EvSend 0 0 v; EvRecv j 0 v].
Proof.
  assert (run (init "ingest" "store" None ∅ ∅) (sched_one_response None)
          = Some (rendezvous_world None, [])) as Hrun by (vm_compute; reflexivity).
  assert (step (rendezvous_world None) (Handoff 0 1)
          = Some (handed_over_world, [EvSend 0 0 None; EvRecv 1 0 None])) as Hstep
    by (vm_compute; reflexivity).
  split; [exact Hrun |].
  destruct (NewDownstreamRequest_channel_is_unbuffered "ingest" "store" None ∅ ∅)
    as (_ & _ & H).
  destruct (H (sched_one_response None) (rendezvous_world None) [] Hrun) as [_ H1].
  assert (new_chan_id (∅ : chan_heap) = 0) as E by (vm_compute; reflexivity).
  rewrite E in H1.
  apply (H1 (Handoff 0 1) handed_over_world [EvSend 0 0 None; EvRecv 1 0 None] 0 Hstep);
    vm_compute; reflexivity.
Defined.

(** ** The cancel channels

    Facts about the callers' cancel channels and about a call that
    waits in its select, used for C5 and for the further properties. *)

(** What a step does to the callers' cancel channels: nothing, the
    caller's own close or send, or the receive of a select that takes its
    cancel case. *)
Lemma step_sigs w a w' evs :
  step w a = Some (w', evs) →
  w_sigs w' = w_sigs w
  ∨ (∃ k s, a = SigClose k ∧ w_sigs w !! k = Some s ∧ ch_closed s = false
       ∧ w_sigs w' = <[k := close_chan s]> (w_sigs w))
  ∨ (∃ k s, a = SigSend k ∧ w_sigs w !! k = Some s ∧ ch_closed s = false
       ∧ w_sigs w' = <[k := push_chan tt s]> (w_sigs w))
  ∨ (∃ i v k ch s, a = Cancel i
       ∧ w_threads w !! i = Some (TRespond v (Some k) (RSelect ch))
       ∧ w_threads w' !! i = Some (TRespond v (Some k) (RReturned (Some err_cancelled)))
       ∧ w_sigs w !! k = Some s ∧ recv_ready s = true
       ∧ w_sigs w' = <[k := set_buf (tail (ch_buf s)) s]> (w_sigs w)).
Proof.
  intros Hstep. destruct a as [c | i0 | i0 j0 | i0 | i0 | k | k]; simpl in Hstep.
  - injection Hstep as <- <-. by left.
  - unfold step_thread in Hstep.
    destruct (w_threads w !! i0) as [[response cancel pc | pc | pc] |]; [| | | done].
    + destruct (Respond_step _ _ _ _ _) as [[[pc' chans'] evs'] |]; [| done].
      injection Hstep as <- <-. by left.
    + destruct (Close_step _ _ _ _) as [[[[pc' r'] chans'] evs'] |]; [| done].
      injection Hstep as <- <-. by left.
    + destruct (Receive_step _ _ _ _) as [[[pc' chans'] evs'] |]; [| done].
      injection Hstep as <- <-. by left.
  - unfold step_handoff in Hstep.
    destruct (w_threads w !! i0) as [[response cancel [| | [c |] |] | |] |]; try done.
    destruct (w_threads w !! j0) as [[| | [| [c' |] |]] |]; try done.
    destruct (w_chans w !! c) as [ch |]; [| done].
    case_decide; [| done]. destruct (ch_closed ch); [done |].
    destruct (ch_buf ch); [| done]. injection Hstep as <- <-. by left.
  - unfold step_cancel in Hstep.
    destruct (w_threads w !! i0) as [[v [k |] [| | ch |] | |] |] eqn:Hi; try done.
    destruct (w_sigs w !! k) as [s |] eqn:Hk; [| done].
    destruct (recv_ready s) eqn:Hready; [| done]. injection Hstep as <- <-.
    right; right; right. exists i0, v, k, ch, s. repeat split; try done.
    simpl. apply list_lookup_insert_eq. by eapply lookup_lt_Some.
  - unfold step_sig_handoff in Hstep.
    destruct (w_threads w !! i0) as [[response [k |] [| | c |] | |] |]; try done.
    destruct (w_sigs w !! k) as [s |]; [| done].
    destruct (recv_ready s); [done |]. injection Hstep as <- <-. by left.
  - unfold step_sig_close in Hstep.
    destruct (w_sigs w !! k) as [s |] eqn:Hk; [| done].
    destruct (ch_closed s) eqn:Hcl; [done |]. injection Hstep as <- <-.
    right; left. by exists k, s.
  - unfold step_sig_send in Hstep.
    destruct (w_sigs w !! k) as [s |] eqn:Hk; [| done].
    destruct (ch_closed s) eqn:Hcl; [done |]. case_decide; [| done].
    injection Hstep as <- <-. right; right; left. by exists k, s.
Qed.






(** C6.  In every world reached from [NewDownstreamRequest u dn m], under
    any calls of [Respond], [Close] and consumers, the three accessors
    return [u], [dn] and [m]; [responseChan] is the channel made by the
    constructor or nil; and whenever no [Close] is between its [Lock] and
    its [Unlock] the request differs from the constructed one in
    [responseChan] only. *)
Theorem identity_fields_are_immutable u dn m chans sigs acts w evs :
  run (init u dn m chans sigs) acts = Some (w, evs) →
  UpstreamPipelineName (w_req w) = u
  ∧ DownstreamPipelineName (w_req w) = dn
  ∧ Data (w_req w) = m
  ∧ (responseChan (w_req w) = Some (new_chan_id chans) ∨ responseChan (w_req w) = None)
  ∧ ((∀ i pc, w_threads w !! i = Some (TClose pc) → in_cs pc = false) →
       w_req w = set_responseChan (responseChan (w_req w))
                   (NewDownstreamRequest u dn m chans).1).
Proof.
  intros Hrun. pose proof (reach_Inv _ _ _ _ _ _ _ _ Hrun) as HI.
  pose proof HI as [Hu Hd Hm (ch & _ & _ & _ & Hrc & _) _ Hheld _].
  repeat split; try done.
  - destruct (responseChan (w_req w)); [left; by subst | by right].
  - intros Hout. unfold set_responseChan. simpl.
    destruct (responseChanLock (w_req w)) eqn:Hl.
    + destruct (Hheld eq_refl) as (i & pc & Hi & Hin). by rewrite (Hout _ _ Hi) in Hin.
    + destruct (w_req w); simpl in *. by subst.
Qed.

Lemma identity_fields_are_immutable_witness :
  run (init "ingest" "store" (Some 7) ∅ ∅) sched_two_closes
    = Some (two_closes_world (Some 7), [EvClose 0 0])
  ∧ UpstreamPipelineName (w_req (two_closes_world (Some 7))) = "ingest"
  ∧ DownstreamPipelineName (w_req (two_closes_world (Some 7))) = "store"
  ∧ Data (w_req (two_closes_world (Some 7))) = Some 7.
Proof.
  assert (run (init "ingest" "store" (Some 7) ∅ ∅) sched_two_closes
          = Some (two_closes_world (Some 7), [EvClose 0 0])) as Hrun
    by (vm_compute; reflexivity).
  split; [exact Hrun |].
  pose proof (identity_fields_are_immutable "ingest" "store" (Some 7) ∅ ∅ sched_two_closes
                (two_closes_world (Some 7)) [EvClose 0 0] Hrun) as (Hu & Hd & Hm & _).
  by repeat split.
Defined.

(** C7.  Once a [Close()] has returned, [Response()] returns nil.  A
    consumer that calls it then obtains the nil channel, and a consumer
    waiting on the nil channel is never moved by any later schedule.  A
    consumer that holds the channel obtained before the close receives
    the zero value with [ok = false]. *)
Theorem Response_after_Close_is_nil u dn m chans sigs acts w evs i :
  run (init u dn m chans sigs) acts = Some (w, evs) →
  w_threads w !! i = Some (TClose CReturned) →
  Response (w_req w) = None
  ∧ (∀ j, w_threads w !! j = Some (TReceive VCall) →
       step w (Step j) =
         Some (mkWorld (w_req w) (w_chans w) (w_sigs w)
                 (<[j := TReceive (VRecv None)]> (w_threads w)), []))
  ∧ (∀ j, w_threads w !! j = Some (TReceive (VRecv None)) →
       (∀ a, moves a j = true → step w a = None)
       ∧ ∀ acts' w' evs', run w acts' = Some (w', evs') →
           w_threads w' !! j = Some (TReceive (VRecv None)))
  ∧ (∀ j c, w_threads w !! j = Some (TReceive (VRecv (Some c))) →
       step w (Step j) =
         Some (mkWorld (w_req w) (w_chans w) (w_sigs w)
                 (<[j := TReceive (VGot None false)]> (w_threads w)), [])).
Proof.
  intros Hrun Hi. pose proof (reach_Inv _ _ _ _ _ _ _ _ Hrun) as HI.
  pose proof (returned_nil _ _ _ _ _ _ HI Hi) as Hnil.
  split; [done |]. split; [| split].
  - intros j Hj. simpl. unfold step_thread. rewrite Hj. simpl.
    unfold Response. by rewrite Hnil.
  - intros j Hj. split.
    + intros a Hm.
      destruct a as [c | i0 | i0 j0 | i0 | i0 | k | k]; simpl in Hm; try done;
        simpl.
      * apply bool_decide_eq_true in Hm as ->. unfold step_thread. by rewrite Hj.
      * unfold step_handoff.
        apply orb_true_iff in Hm as [->%bool_decide_eq_true | ->%bool_decide_eq_true].
        -- by rewrite Hj.
        -- rewrite Hj. by destruct (w_threads w !! i0) as [[? ? [| | [] |] | |] |].
      * apply bool_decide_eq_true in Hm as ->. unfold step_cancel. by rewrite Hj.
      * apply bool_decide_eq_true in Hm as ->. unfold step_sig_handoff. by rewrite Hj.
    + intros acts' w' evs' Hrun'. by eapply run_stuck.
  - intros j c Hj.
    pose proof HI as [_ _ _ (ch & Hch & _ & Hbuf & Hrc & _ & Hok) _ _ _].
    pose proof (Hok _ _ Hj) as Hokj. simpl in Hokj. subst c.
    rewrite Hnil in Hrc.
    simpl. unfold step_thread. rewrite Hj. simpl. by rewrite Hch, Hbuf, Hrc.
Qed.

Lemma Response_after_Close_is_nil_witness :
  run (init "ingest" "store" None ∅ ∅) sched_receive_around_close
    = Some (around_close_world, [EvClose 1 0])
  ∧ Response (w_req around_close_world) = None
  ∧ step around_close_world (Step 2) = None
  ∧ step around_close_world (Step 0) =
      Some (mkWorld (w_req around_close_world) (w_chans around_close_world)
              (w_sigs around_close_world)
              (<[0 := TReceive (VGot None false)]> (w_threads around_close_world)), []).
Proof.
  assert (run (init "ingest" "store" None ∅ ∅) sched_receive_around_close
          = Some (around_close_world, [EvClose 1 0])) as Hrun by (vm_compute; reflexivity).
  split; [exact Hrun |].
  destruct (Response_after_Close_is_nil "ingest" "store" None ∅ ∅
              sched_receive_around_close around_close_world [EvClose 1 0] 1
              Hrun eq_refl) as (Hnil & _ & Hblock & Hold).
  split; [exact Hnil |]. split.
  - exact (proj1 (Hblock 2 eq_refl) (Step 2) eq_refl).
  - exact (Hold 0 0 eq_refl).
Defined.

(** C8.  [Data()] returns the very map reference given to
    [NewDownstreamRequest], the nil map included, at construction and in
    every world reached later.  So a read or an assignment through the
    returned reference is the same as through the caller's reference, and
    an assignment made through either is read back through the other,
    the other keys keeping their values. *)
Theorem Data_returns_the_supplied_map u dn m chans sigs acts w evs :
  run (init u dn m chans sigs) acts = Some (w, evs) →
  Data (NewDownstreamRequest u dn m chans).1 = m
  ∧ Data (w_req w) = m
  ∧ ∀ st k v,
      map_index (Data (w_req w)) k st = map_index m k st
      ∧ map_assign (Data (w_req w)) k v st = map_assign m k v st
      ∧ (∀ st', map_assign (Data (w_req w)) k v st = Some st' →
           map_index m k st' = Some v
           ∧ ∀ k', k' ≠ k → map_index m k' st' = map_index m k' st)
      ∧ (∀ st', map_assign m k v st = Some st' →
           map_index (Data (w_req w)) k st' = Some v
           ∧ ∀ k', k' ≠ k →
               map_index (Data (w_req w)) k' st' = map_index (Data (w_req w)) k' st).
Proof.
  intros Hrun. pose proof (reach_Inv _ _ _ _ _ _ _ _ Hrun) as HI.
  assert (Data (w_req w) = m) as Hd by apply (inv_data _ _ _ _ _ HI).
  split; [done |]. split; [done |].
  assert (∀ st k v st', map_assign m k v st = Some st' →
            map_index m k st' = Some v
            ∧ ∀ k', k' ≠ k → map_index m k' st' = map_index m k' st) as Hback.
  { intros st k v st' Hassign. unfold map_assign in Hassign.
    destruct m as [l |]; [| done].
    destruct (st !! l) as [h |] eqn:Hl; [| done]. injection Hassign as <-.
    unfold map_index. rewrite Hl, !lookup_insert_eq.
    split; [done |]. intros k' Hne. by rewrite lookup_insert_ne. }
  intros st k v. rewrite Hd. split; [done |]. split; [done |].
  split; intros st' Hassign; exact (Hback _ _ _ _ Hassign).
Qed.

Lemma Data_returns_the_supplied_map_witness :
  run (init "ingest" "store" (Some 7) ∅ ∅) sched_two_closes
    = Some (two_closes_world (Some 7), [EvClose 0 0])
  ∧ Data (w_req (two_closes_world (Some 7))) = Some 7
  ∧ map_assign (Data (w_req (two_closes_world (Some 7)))) (IStr "stored") (IBool true)
      store_with_id = Some store_with_both
  ∧ map_index (Some 7) (IStr "stored") store_with_both = Some (IBool true).
Proof.
  assert (run (init "ingest" "store" (Some 7) ∅ ∅) sched_two_closes
          = Some (two_closes_world (Some 7), [EvClose 0 0])) as Hrun
    by (vm_compute; reflexivity).
  assert (map_assign (Data (w_req (two_closes_world (Some 7)))) (IStr "stored") (IBool true)
            store_with_id = Some store_with_both) as Hassign by (vm_compute; reflexivity).
  destruct (Data_returns_the_supplied_map "ingest" "store" (Some 7) ∅ ∅
              sched_two_closes (two_closes_world (Some 7)) [EvClose 0 0] Hrun)
    as (_ & Hd & Hmap).
  split; [exact Hrun |]. split; [exact Hd |]. split; [exact Hassign |].
  destruct (Hmap store_with_id (IStr "stored") (IBool true)) as (_ & _ & Hback & _).
  exact (proj1 (Hback store_with_both Hassign)).
Defined.

(** C9.  The two sentinels are the string "*", hence equal. *)
Theorem sentinel_instance_id_is_star :
  DATA_BUCKET_FOR_ALL_PLUGIN_INSTANCE = "*"
  ∧ STATISTICS_INDICATOR_FOR_ALL_PLUGIN_INSTANCE = "*"
  ∧ DATA_BUCKET_FOR_ALL_PLUGIN_INSTANCE = STATISTICS_INDICATOR_FOR_ALL_PLUGIN_INSTANCE.
Proof. by repeat split. Qed.

(** C10, as stated, fails: [StatisticsKind] is a string type, and the
    string "OtherStatistics" is a value of it that is none of the three
    constants. *)
Lemma StatisticsKind_admits_other_values :
  ¬ (∀ kind : StatisticsKind,
       kind = SuccessStatistics ∨ kind = FailureStatistics ∨ kind = AllStatistics).
Proof. intros H. by destruct (H "OtherStatistics") as [? | [? | ?]]. Qed.

(** C10, amended.  The three constants are the strings of their names
    and are pairwise distinct; every string is a [StatisticsKind]. *)
Theorem StatisticsKind_constants_are_distinct :
  SuccessStatistics = "SuccessStatistics"
  ∧ FailureStatistics = "FailureStatistics"
  ∧ AllStatistics = "AllStatistics"
  ∧ SuccessStatistics ≠ FailureStatistics
  ∧ SuccessStatistics ≠ AllStatistics
  ∧ FailureStatistics ≠ AllStatistics
  ∧ ∀ s : string, ∃ kind : StatisticsKind, kind = s.
Proof. repeat split; try done. intros s. by exists s. Qed.

(** ** [Respond] racing with [Close]

    Two schedules in which [Close] runs after [Respond] passed the test of
    line 95.  They are outside the claims above, which speak of calls that
    start after [Close] returned. *)

(** The channel is closed while [Respond] waits in its select: the send
    panics, the deferred function recovers, and the call returns the
    error "request from pipeline <downstream> is closed". *)
Example Respond_recovers_when_closed_in_select :
  run (init "ingest" "store" None ∅ ∅) sched_close_during_select
    = Some (close_during_select_world, [EvClose 1 0])
  ∧ step close_during_select_world (Step 0)
    = Some (mkWorld (w_req close_during_select_world) (w_chans close_during_select_world) ∅
              [TRespond None None
                 (RReturned (Some "request from pipeline store is closed"));
               TClose CNil],
            [EvRecover 0]).
Proof. split; vm_compute; reflexivity. Qed.

(** [Close] returns before [Respond] evaluates the operands of its
    select: the send case is on the nil channel, and with a nil cancel
    channel no later schedule moves the call. *)
Example Respond_past_the_test_waits_on_nil :
  run (init "ingest" "store" None ∅ ∅) sched_close_before_select
    = Some (close_before_select_world, [EvClose 1 0])
  ∧ ∀ acts w evs, run close_before_select_world acts = Some (w, evs) →
      w_threads w !! 0 = Some (TRespond None None (RSelect None)).
Proof.
  split; [vm_compute; reflexivity |].
  intros acts w evs Hrun. by eapply run_stuck.
Qed.

(** * Further properties of [Respond], [Close] and [Response] *)

(** ** How goroutines move in a world that satisfies the invariant *)

Lemma step_thread_inv u dn m c0 w a w' evs i t' :
  Inv u dn m c0 w → step w a = Some (w', evs) →
  w_threads w' !! i = Some t' →
  w_threads w !! i = Some t'
  ∨ (∃ c, a = Spawn c ∧ w_threads w !! i = None ∧ t' = start c)
  ∨ (∃ t, w_threads w !! i = Some t ∧ trans c0 w w' t t').
Proof.
  intros HI Hstep Hi'.
  pose proof HI as [_ _ _ (ch & Hc & Hcap & Hbuf & Hrc & Hq & Hok) _ _ _].
  destruct a as [c | i0 | i0 j0 | i0 | i0 | k | k]; simpl in Hstep.
  - injection Hstep as <- <-. simpl in Hi'.
    apply lookup_snoc_Some in Hi' as [Hi' | [-> ->]]; [by left |].
    right; left. exists c. repeat split. by apply lookup_ge_None_2.
  - unfold step_thread in Hstep.
    destruct (w_threads w !! i0) as [[v k pc | pc | pc] |] eqn:H0; [| | | done].
    + destruct (Respond_step _ _ _ _ _) as [[[pc' chans'] evs'] |] eqn:Hs; [| done].
      injection Hstep as <- <-. simpl in Hi'.
      apply lookup_insert_Some_list in Hi' as [[<- ->] | [_ Hi']]; [| by left].
      right; right. eexists. split; [exact H0 |].
      pose proof (Hok _ _ H0) as Hok0.
      destruct pc as [| | [c |] |]; simpl in Hs, Hok0; try done.
      * destruct (responseChan (w_req w)) eqn:Hr; injection Hs as <- <- <-.
        -- apply tr_body. congruence.
        -- by apply tr_was_closed.
      * injection Hs as <- <- <-. apply tr_select.
      * subst c. rewrite Hc in Hs. destruct (ch_closed ch) eqn:Hcl.
        -- injection Hs as <- <- <-. apply tr_recovered.
           unfold is_closed. by rewrite Hc.
        -- rewrite Hbuf, Hcap in Hs.
           by rewrite decide_False in Hs by (simpl; lia).
    + destruct (Close_step _ _ _ _) as [[[[pc' r'] chans'] evs'] |] eqn:Hs; [| done].
      injection Hstep as <- <-. simpl in Hi'.
      apply lookup_insert_Some_list in Hi' as [[<- ->] | [_ Hi']]; [| by left].
      right; right. eexists. split; [exact H0 |]. apply tr_close.
    + destruct (Receive_step _ _ _ _) as [[[pc' chans'] evs'] |] eqn:Hs; [| done].
      injection Hstep as <- <-. simpl in Hi'.
      apply lookup_insert_Some_list in Hi' as [[<- ->] | [_ Hi']]; [| by left].
      right; right. eexists. split; [exact H0 |].
      pose proof (Hok _ _ H0) as Hok0.
      destruct pc as [| [c |] |]; simpl in Hs, Hok0; try done.
      * injection Hs as <- <- <-. apply tr_response.
      * subst c. rewrite Hc, Hbuf in Hs. destruct (ch_closed ch) eqn:Hcl; [| done].
        injection Hs as <- <- <-. apply tr_recv_closed.
        unfold is_closed. by rewrite Hc.
  - unfold step_handoff in Hstep.
    destruct (w_threads w !! i0) as [[v k [| | [c |] |] | |] |] eqn:H0; try done.
    destruct (w_threads w !! j0) as [[| | [| [c' |] |]] |] eqn:Hj; try done.
    pose proof (Hok _ _ H0) as Hok0. simpl in Hok0. subst c.
    rewrite Hc in Hstep. case_decide; [subst c' | done].
    destruct (ch_closed ch) eqn:Hcl; [done |].
    destruct (ch_buf ch); [| done]. injection Hstep as <- <-. simpl in *.
    assert (i0 ≠ j0) as Hne by (intros ->; congruence).
    assert (i0 < length (w_threads w)) as Hil by (by eapply lookup_lt_Some).
    assert (j0 < length (w_threads w)) as Hjl by (by eapply lookup_lt_Some).
    apply lookup_insert_Some_list in Hi' as [[<- ->] | [Hnj Hi']].
    + right; right. eexists. split; [exact Hj |].
      eapply tr_received; [exact H0 |]. simpl.
      rewrite list_lookup_insert_ne by done. by apply list_lookup_insert_eq.
    + apply lookup_insert_Some_list in Hi' as [[<- ->] | [_ Hi']]; [| by left].
      right; right. eexists. split; [exact H0 |].
      eapply tr_sent; [| exact Hj |].
      * unfold is_closed. by rewrite Hc.
      * simpl. apply list_lookup_insert_eq. by rewrite length_insert.
  - unfold step_cancel in Hstep.
    destruct (w_threads w !! i0) as [[v [k |] [| | c |] | |] |] eqn:H0; try done.
    destruct (w_sigs w !! k) as [s |]; [| done].
    destruct (recv_ready s); [| done]. injection Hstep as <- <-. simpl in Hi'.
    apply lookup_insert_Some_list in Hi' as [[<- ->] | [_ Hi']]; [| by left].
    right; right. eexists. split; [exact H0 |]. apply tr_cancelled.
  - unfold step_sig_handoff in Hstep.
    destruct (w_threads w !! i0) as [[v [k |] [| | c |] | |] |] eqn:H0; try done.
    destruct (w_sigs w !! k) as [s |]; [| done].
    destruct (recv_ready s); [done |]. injection Hstep as <- <-. simpl in Hi'.
    apply lookup_insert_Some_list in Hi' as [[<- ->] | [_ Hi']]; [| by left].
    right; right. eexists. split; [exact H0 |]. apply tr_cancelled.
  - unfold step_sig_close in Hstep.
    destruct (w_sigs w !! k) as [s |]; [| done].
    destruct (ch_closed s); [done |]. injection Hstep as <- <-. by left.
  - unfold step_sig_send in Hstep.
    destruct (w_sigs w !! k) as [s |]; [| done].
    destruct (ch_closed s); [done |]. case_decide; [| done].
    injection Hstep as <- <-. by left.
Qed.

(** ** Invariants kept by every step *)

Lemma count_zero_sub (p q : event → bool) (evs : list event) :
  (∀ e, q e = true → p e = true) → count p evs = 0 → count q evs = 0.
Proof.
  intros Hsub. induction evs as [| e evs IH]; [done |].
  rewrite !count_cons. intros H. destruct (q e) eqn:Hq.
  - rewrite (Hsub _ Hq) in H. simpl in H. lia.
  - simpl. apply IH. destruct (p e); simpl in H; lia.
Qed.

(** A closed channel stays closed. *)
Lemma step_closed_mono u dn m c0 w a w' evs :
  Inv u dn m c0 w → step w a = Some (w', evs) →
  is_closed c0 (w_chans w) = true → is_closed c0 (w_chans w') = true.
Proof.
  intros HI Hstep Hcl.
  destruct (step_effect _ _ _ _ _ _ _ _ HI Hstep)
    as [_ Hch _ _ | i ch _ _ _ _ _ Hch _ _ | i j v k _ _ Hch _ _ _].
  - by rewrite Hch.
  - unfold is_closed. by rewrite Hch, lookup_insert_eq.
  - by rewrite Hch.
Qed.

(** Once the channel is closed no send completes. *)
Lemma run_closed_mono u dn m c0 acts : ∀ w w' evs,
  Inv u dn m c0 w → run w acts = Some (w', evs) →
  is_closed c0 (w_chans w) = true →
  is_closed c0 (w_chans w') = true ∧ count is_send_ev evs = 0.
Proof.
  induction acts as [| a acts IH]; intros w w' evs HI Hrun Hcl; simpl in Hrun.
  - by injection Hrun as <- <-.
  - destruct (step w a) as [[w1 evs1] |] eqn:Hs; [| done].
    destruct (run w1 acts) as [[w2 evs2] |] eqn:Hr; [| done].
    injection Hrun as <- <-.
    destruct (IH _ _ _ (step_Inv _ _ _ _ _ _ _ _ HI Hs) Hr
                (step_closed_mono _ _ _ _ _ _ _ _ HI Hs Hcl)) as [Hcl' H0].
    split; [done |]. rewrite count_app, H0.
    destruct (step_effect _ _ _ _ _ _ _ _ HI Hs)
      as [Hsil _ _ _ | i ch _ -> _ _ _ _ _ _ | i j v k -> -> _ Hi Hj _].
    + by destruct Hsil as [-> | [i ->]].
    + done.
    + exfalso. simpl in Hs. unfold step_handoff in Hs. rewrite Hi, Hj in Hs.
      unfold is_closed in Hcl. destruct (w_chans w !! c0) as [ch |]; [| done].
      rewrite decide_True in Hs by done. by rewrite Hcl in Hs.
Qed.

(** The calls touch no channel but the one of the request. *)
Lemma step_other_chans u dn m c0 w a w' evs c :
  Inv u dn m c0 w → step w a = Some (w', evs) → c ≠ c0 →
  w_chans w' !! c = w_chans w !! c.
Proof.
  intros HI Hstep Hne.
  destruct (step_effect _ _ _ _ _ _ _ _ HI Hstep)
    as [_ Hch _ _ | i ch _ _ _ _ _ Hch _ _ | i j v k _ _ Hch _ _ _].
  - by rewrite Hch.
  - rewrite Hch. by apply lookup_insert_ne.
  - by rewrite Hch.
Qed.

Lemma run_other_chans u dn m c0 acts : ∀ w w' evs c,
  Inv u dn m c0 w → run w acts = Some (w', evs) → c ≠ c0 →
  w_chans w' !! c = w_chans w !! c.
Proof.
  induction acts as [| a acts IH]; intros w w' evs c HI Hrun Hne; simpl in Hrun.
  - by injection Hrun as <- <-.
  - destruct (step w a) as [[w1 evs1] |] eqn:Hs; [| done].
    destruct (run w1 acts) as [[w2 evs2] |] eqn:Hr; [| done].
    injection Hrun as <- <-.
    rewrite (IH _ _ _ _ (step_Inv _ _ _ _ _ _ _ _ HI Hs) Hr Hne).
    by eapply step_other_chans.
Qed.

(** The errors [Respond] has returned so far. *)
Lemma step_errors_ok u dn m c0 w a w' evs :
  Inv u dn m c0 w → errors_ok dn c0 w → step w a = Some (w', evs) →
  errors_ok dn c0 w'.
Proof.
  intros HI Hok Hstep i v k e Hi'.
  pose proof (inv_downstream _ _ _ _ _ HI) as Hdn. subst dn.
  destruct (step_thread_inv _ _ _ _ _ _ _ _ _ _ HI Hstep Hi')
    as [Hi | [(c & _ & _ & Hs) | (t & Hi & Ht)]].
  - destruct (Hok _ _ _ _ Hi) as [? | [? Hcl]]; [by left |].
    right. split; [done |]. by eapply step_closed_mono.
  - by destruct c.
  - inversion Ht; subst.
    + right. unfold err_was_closed. split; [by left |].
      eapply step_closed_mono; [done ..|].
      destruct HI as [_ _ _ (ch & Hc & _ & _ & Hrc & _) _ _ _].
      unfold is_closed. rewrite Hc.
      match goal with H : responseChan _ = None |- _ => by rewrite H in Hrc end.
    + right. unfold err_is_closed. split; [by right |].
      by eapply step_closed_mono.
    + by left.
Qed.

Lemma run_errors_ok u dn m c0 acts : ∀ w w' evs,
  Inv u dn m c0 w → errors_ok dn c0 w → run w acts = Some (w', evs) →
  errors_ok dn c0 w'.
Proof.
  induction acts as [| a acts IH]; intros w w' evs HI Hok Hrun; simpl in Hrun.
  - by injection Hrun as <- <-.
  - destruct (step w a) as [[w1 evs1] |] eqn:Hs; [| done].
    destruct (run w1 acts) as [[w2 evs2] |] eqn:Hr; [| done].
    injection Hrun as <- <-.
    eapply IH; [by eapply step_Inv | by eapply step_errors_ok | done].
Qed.

(** Senders that returned nil and consumers that received. *)
Lemma step_delivered_ok u dn m c0 w a w' evs :
  Inv u dn m c0 w → delivered_ok w → step w a = Some (w', evs) →
  delivered_ok w'.
Proof.
  intros HI [Hgot Hsent] Hstep. split.
  - intros j v Hj'.
    destruct (step_thread_inv _ _ _ _ _ _ _ _ _ _ HI Hstep Hj')
      as [Hj | [(c & _ & _ & Hs) | (t & Hj & Ht)]].
    + destruct (Hgot _ _ Hj) as (i & k & Hi). exists i, k.
      eapply step_stuck; [done | done | by destruct k].
    + by destruct c.
    + inversion Ht; subst. eauto.
  - intros i v k Hi'.
    destruct (step_thread_inv _ _ _ _ _ _ _ _ _ _ HI Hstep Hi')
      as [Hi | [(c & _ & _ & Hs) | (t & Hi & Ht)]].
    + destruct (Hsent _ _ _ Hi) as (j & Hj). exists j.
      by eapply step_stuck.
    + by destruct c.
    + inversion Ht; subst. eauto.
Qed.

Lemma run_delivered_ok u dn m c0 acts : ∀ w w' evs,
  Inv u dn m c0 w → delivered_ok w → run w acts = Some (w', evs) →
  delivered_ok w'.
Proof.
  induction acts as [| a acts IH]; intros w w' evs HI Hok Hrun; simpl in Hrun.
  - by injection Hrun as <- <-.
  - destruct (step w a) as [[w1 evs1] |] eqn:Hs; [| done].
    destruct (run w1 acts) as [[w2 evs2] |] eqn:Hr; [| done].
    injection Hrun as <- <-.
    eapply IH; [by eapply step_Inv | by eapply step_delivered_ok | done].
Qed.

(** Schedules that start no [Close] call. *)
Lemma trans_kind c0 w w' t t' :
  trans c0 w w' t t' → is_close_thread t' = is_close_thread t.
Proof. by intros []. Qed.

Lemma step_no_close u dn m c0 w a w' evs :
  Inv u dn m c0 w → no_close_threads w → is_close_call a = false →
  step w a = Some (w', evs) →
  no_close_threads w' ∧ w_chans w' = w_chans w.
Proof.
  intros HI Hno Ha Hstep. split.
  - intros i t' Hi'.
    destruct (step_thread_inv _ _ _ _ _ _ _ _ _ _ HI Hstep Hi')
      as [Hi | [(c & -> & _ & ->) | (t & Hi & Ht)]].
    + by eapply Hno.
    + by destruct c.
    + rewrite (trans_kind _ _ _ _ _ Ht). by eapply Hno.
  - destruct (step_effect _ _ _ _ _ _ _ _ HI Hstep)
      as [_ Hch _ _ | i ch _ _ Hi _ _ _ _ _ | i j v k _ _ Hch _ _ _]; try done.
    by pose proof (Hno _ _ Hi).
Qed.

Lemma run_no_close u dn m c0 acts : ∀ w w' evs,
  Inv u dn m c0 w → no_close_threads w → no_close_call acts = true →
  run w acts = Some (w', evs) →
  no_close_threads w' ∧ w_chans w' = w_chans w.
Proof.
  induction acts as [| a acts IH]; intros w w' evs HI Hno Hacts Hrun; simpl in Hrun.
  - by injection Hrun as <- <-.
  - destruct (step w a) as [[w1 evs1] |] eqn:Hs; [| done].
    destruct (run w1 acts) as [[w2 evs2] |] eqn:Hr; [| done].
    injection Hrun as <- <-.
    simpl in Hacts. apply andb_true_iff in Hacts as [Ha Hacts].
    apply negb_true_iff in Ha.
    destruct (step_no_close _ _ _ _ _ _ _ _ HI Hno Ha Hs) as [Hno1 Hch1].
    destruct (IH _ _ _ (step_Inv _ _ _ _ _ _ _ _ HI Hs) Hno1 Hacts Hr) as [Hno2 Hch2].
    split; [done | congruence].
Qed.

(** Running [Close] calls to their end. *)
Lemma run_app acts1 : ∀ acts2 w w1 evs1 w2 evs2,
  run w acts1 = Some (w1, evs1) → run w1 acts2 = Some (w2, evs2) →
  run w (acts1 ++ acts2) = Some (w2, evs1 ++ evs2).
Proof.
  induction acts1 as [| a acts1 IH]; intros acts2 w w1 evs1 w2 evs2 H1 H2; simpl in *.
  - by injection H1 as <- <-.
  - destruct (step w a) as [[w0 evs0] |]; [| done].
    destruct (run w0 acts1) as [[w3 evs3] |] eqn:Hr; [| done].
    injection H1 as <- <-. rewrite (IH _ _ _ _ _ _ Hr H2). by rewrite app_assoc.
Qed.

Lemma cs_progress u dn m c0 w h pc :
  Inv u dn m c0 w → w_threads w !! h = Some (TClose pc) → in_cs pc = true →
  ∃ pc1 r1 chans1 evs1,
    step w (Step h)
      = Some (mkWorld r1 chans1 (w_sigs w) (<[h := TClose pc1]> (w_threads w)), evs1)
    ∧ (close_left pc1 < close_left pc)%nat
    ∧ (in_cs pc1 = true ∨ (pc1 = CReturned ∧ responseChanLock r1 = false)).
Proof.
  intros HI Hh Hin.
  pose proof HI as [_ _ _ (ch & Hc & _ & _ & Hrc & _ & Hok) _ _ _].
  pose proof (Hok _ _ Hh) as Hokh.
  simpl. unfold step_thread. rewrite Hh.
  destruct pc; simpl in Hin, Hokh |- *; try done.
  - destruct (responseChan (w_req w)); do 4 eexists;
      (split; [reflexivity |]); simpl; split; (lia || by left).
  - destruct Hokh as [Hr Hopen]. rewrite Hr, Hc, Hopen.
    do 4 eexists. split; [reflexivity |]. simpl. split; [lia | by left].
  - do 4 eexists. split; [reflexivity |]. simpl. split; [lia | by left].
  - destruct Hokh as [-> _].
    do 4 eexists. split; [reflexivity |]. simpl. split; [lia | by right].
Qed.

Lemma cs_finishes u dn m c0 (n : nat) : ∀ w h pc,
  (close_left pc ≤ n)%nat →
  Inv u dn m c0 w → w_threads w !! h = Some (TClose pc) → in_cs pc = true →
  ∃ k w' evs,
    run w (replicate k (Step h)) = Some (w', evs)
    ∧ w_threads w' !! h = Some (TClose CReturned)
    ∧ responseChanLock (w_req w') = false
    ∧ ∀ j t, j ≠ h → w_threads w !! j = Some t → w_threads w' !! j = Some t.
Proof.
  induction n as [| n IH]; intros w h pc Hle HI Hh Hin.
  { destruct pc; simpl in Hle, Hin; (done || lia). }
  destruct (cs_progress _ _ _ _ _ _ _ HI Hh Hin)
    as (pc1 & r1 & chans1 & evs1 & Hstep & Hlt & Hnext).
  assert (h < length (w_threads w)) as Hhl by (by eapply lookup_lt_Some).
  set (w1 := mkWorld r1 chans1 (w_sigs w) (<[h := TClose pc1]> (w_threads w))) in *.
  assert (w_threads w1 !! h = Some (TClose pc1)) as Hh1
    by (by apply list_lookup_insert_eq).
  assert (∀ j t, j ≠ h → w_threads w !! j = Some t → w_threads w1 !! j = Some t)
    as Hothers.
  { intros j t Hne Hj. simpl. by rewrite list_lookup_insert_ne. }
  destruct Hnext as [Hin1 | [-> Hfree]].
  - destruct (IH w1 h pc1 ltac:(lia) (step_Inv _ _ _ _ _ _ _ _ HI Hstep) Hh1 Hin1)
      as (k & w' & evs & Hrun & Hret & Hl & Hoth).
    exists (S k), w', (evs1 ++ evs). cbn [replicate run]. rewrite Hstep, Hrun.
    repeat split; try done. intros j t Hne Hj. by apply Hoth, Hothers.
  - exists 1, w1, (evs1 ++ []). cbn [replicate run]. rewrite Hstep. by repeat split.
Qed.

Lemma lock_then_finish u dn m c0 w i :
  Inv u dn m c0 w → w_threads w !! i = Some (TClose CLock) →
  responseChanLock (w_req w) = false →
  ∃ k w' evs,
    run w (replicate k (Step i)) = Some (w', evs)
    ∧ w_threads w' !! i = Some (TClose CReturned).
Proof.
  intros HI Hi Hfree.
  assert (i < length (w_threads w)) as Hil by (by eapply lookup_lt_Some).
  set (w1 := mkWorld (set_lock true (w_req w)) (w_chans w) (w_sigs w)
               (<[i := TClose CTest]> (w_threads w))).
  assert (step w (Step i) = Some (w1, [])) as Hstep.
  { simpl. unfold step_thread. rewrite Hi. simpl. by rewrite Hfree. }
  assert (w_threads w1 !! i = Some (TClose CTest)) as Hi1
    by (by apply list_lookup_insert_eq).
  destruct (cs_finishes _ _ _ _ 4 w1 i CTest ltac:(simpl; lia)
              (step_Inv _ _ _ _ _ _ _ _ HI Hstep) Hi1 eq_refl)
    as (k & w' & evs & Hrun & Hret & _).
  exists (S k), w', ([] ++ evs). cbn [replicate run]. by rewrite Hstep, Hrun.
Qed.

(** ** The properties *)

(** X1.  A [Respond] call waits in its select and the channel it sends on
    has been closed (a [Close] ran after the test of line 95).  The send
    case can be taken: the send panics, the deferred function recovers,
    and the call returns "request from pipeline <downstream> is closed";
    nothing is sent and no receiver can be handed the response. *)
Theorem Respond_recovers_from_closed_channel
    u dn m chans sigs acts w evs i v k c :
  run (init u dn m chans sigs) acts = Some (w, evs) →
  w_threads w !! i = Some (TRespond v k (RSelect (Some c))) →
  is_closed c (w_chans w) = true →
  step w (Step i) =
    Some (mkWorld (w_req w) (w_chans w) (w_sigs w)
            (<[i := TRespond v k
                      (RReturned (Some ("request from pipeline " +:+ dn +:+ " is closed")))]>
               (w_threads w)), [EvRecover i])
  ∧ ∀ j, step w (Handoff i j) = None.
Proof.
  intros Hrun Hi Hcl. pose proof (reach_Inv _ _ _ _ _ _ _ _ Hrun) as HI.
  unfold is_closed in Hcl. destruct (w_chans w !! c) as [ch |] eqn:Hc; [| done].
  split.
  - simpl. unfold step_thread. rewrite Hi. simpl. rewrite Hc, Hcl.
    unfold err_is_closed. by rewrite (inv_downstream _ _ _ _ _ HI).
  - intros j. simpl. unfold step_handoff. rewrite Hi.
    destruct (w_threads w !! j) as [[| | [| [c' |] |]] |]; try done.
    rewrite Hc. case_decide; [| done]. by rewrite Hcl.
Qed.

Lemma Respond_recovers_from_closed_channel_witness :
  run (init "ingest" "store" None ∅ ∅) sched_close_during_select
    = Some (close_during_select_world, [EvClose 1 0])
  ∧ step close_during_select_world (Step 0) =
      Some (mkWorld (w_req close_during_select_world) (w_chans close_during_select_world)
              (w_sigs close_during_select_world)
              (<[0 := TRespond None None
                        (RReturned (Some ("request from pipeline " +:+ "store" +:+ " is closed")))]>
                 (w_threads close_during_select_world)), [EvRecover 0]).
Proof.
  assert (run (init "ingest" "store" None ∅ ∅) sched_close_during_select
          = Some (close_during_select_world, [EvClose 1 0])) as Hrun
    by (vm_compute; reflexivity).
  split; [exact Hrun |].
  apply (Respond_recovers_from_closed_channel "ingest" "store" None ∅ ∅
           sched_close_during_select close_during_select_world [EvClose 1 0]
           0 None None 0 Hrun); vm_compute; reflexivity.
Defined.

(** X2.  For every request and response there is a schedule of one
    [Respond] call with a nil cancel channel and one [Close] call, in
    which [Close] runs from start to return between the test of line 95
    and the select of line 109: the select then sends on the nil channel,
    and no later schedule ever moves the [Respond] call. *)
Theorem Respond_can_wait_forever_after_Close u dn m chans sigs v :
  ∃ w evs,
    run (init u dn m chans sigs) (sched_respond_across_close v) = Some (w, evs)
    ∧ w_threads w !! 1 = Some (TClose CReturned)
    ∧ w_threads w !! 0 = Some (TRespond v None (RSelect None))
    ∧ ∀ acts w' evs', run w acts = Some (w', evs') →
        w_threads w' !! 0 = Some (TRespond v None (RSelect None)).
Proof.
  eexists _, _. split.
  { unfold init, NewDownstreamRequest, sched_respond_across_close. simpl.
    unfold step_thread. simpl. rewrite lookup_insert_eq. simpl. reflexivity. }
  split; [done |]. split; [done |].
  intros acts w' evs' Hrun. by eapply run_stuck.
Qed.

(** X3.  An error returned by [Respond] is "response is canclled" or one
    of the two closed errors, and a closed error is returned only when
    the channel of the request has been closed, by exactly one close. *)
Theorem Respond_error_is_one_of_three u dn m chans sigs acts w evs i v k e :
  run (init u dn m chans sigs) acts = Some (w, evs) →
  w_threads w !! i = Some (TRespond v k (RReturned (Some e))) →
  e = "response is canclled"
  ∨ ((e = "request from pipeline " +:+ dn +:+ " was closed"
      ∨ e = "request from pipeline " +:+ dn +:+ " is closed")
     ∧ is_closed (new_chan_id chans) (w_chans w) = true
     ∧ (count is_close_ev evs = 1)%nat).
Proof.
  intros Hrun Hi.
  assert (errors_ok dn (new_chan_id chans) w) as Herr.
  { eapply run_errors_ok; [apply init_Inv | | exact Hrun]. by intros ? ? ? ?. }
  destruct (Herr _ _ _ _ Hi) as [-> | [He Hcl]]; [by left | right].
  repeat split; try done.
  pose proof (run_accounts _ _ _ _ _ _ _ _ (init_Inv u dn m chans sigs) Hrun)
    as (_ & Hc & _).
  rewrite Hcl in Hc.
  assert (is_closed (new_chan_id chans) (w_chans (init u dn m chans sigs)) = false) as H0.
  { unfold is_closed, init, NewDownstreamRequest. simpl. by rewrite lookup_insert_eq. }
  rewrite H0 in Hc. simpl in Hc. lia.
Qed.

Lemma Respond_error_is_one_of_three_witness :
  run (init "ingest" "store" None ∅ ∅) sched_refused = Some (refused_world, [EvClose 0 0])
  ∧ ("request from pipeline store was closed" = "response is canclled"
     ∨ (("request from pipeline store was closed"
           = "request from pipeline " +:+ "store" +:+ " was closed"
         ∨ "request from pipeline store was closed"
           = "request from pipeline " +:+ "store" +:+ " is closed")
        ∧ is_closed (new_chan_id ∅) (w_chans refused_world) = true
        ∧ (count is_close_ev [EvClose 0 0] = 1)%nat)).
Proof.
  assert (run (init "ingest" "store" None ∅ ∅) sched_refused
          = Some (refused_world, [EvClose 0 0])) as Hrun by (vm_compute; reflexivity).
  split; [exact Hrun |].
  apply (Respond_error_is_one_of_three "ingest" "store" None ∅ ∅ sched_refused
           refused_world [EvClose 0 0] 1 None None _ Hrun).
  vm_compute; reflexivity.
Defined.

(** X4.  As long as no [Close] call is started, [Respond] calls and
    consumers leave the request and the channel heap exactly as
    [NewDownstreamRequest] made them, [Response()] is the channel of the
    constructor, and a [Respond] call that has returned returned nil or
    "response is canclled". *)
Theorem request_stays_open_without_Close u dn m chans sigs acts w evs :
  no_close_call acts = true →
  run (init u dn m chans sigs) acts = Some (w, evs) →
  w_req w = (NewDownstreamRequest u dn m chans).1
  ∧ w_chans w = (NewDownstreamRequest u dn m chans).2
  ∧ Response (w_req w) = Some (new_chan_id chans)
  ∧ ∀ i v k e, w_threads w !! i = Some (TRespond v k (RReturned e)) →
      e = None ∨ e = Some "response is canclled".
Proof.
  intros Hacts Hrun. pose proof (reach_Inv _ _ _ _ _ _ _ _ Hrun) as HI.
  assert (no_close_threads (init u dn m chans sigs)) as Hno0 by (by intros i t).
  destruct (run_no_close _ _ _ _ _ _ _ _ (init_Inv u dn m chans sigs) Hno0 Hacts Hrun)
    as [Hno Hch].
  assert (is_closed (new_chan_id chans) (w_chans w) = false) as Hopen.
  { rewrite Hch. unfold is_closed, init, NewDownstreamRequest. simpl.
    by rewrite lookup_insert_eq. }
  pose proof HI as [Hu Hd Hm (ch & Hc & _ & _ & Hrc & _) _ Hheld _].
  assert (responseChan (w_req w) = Some (new_chan_id chans)) as Hr.
  { destruct (responseChan (w_req w)); [by subst |].
    unfold is_closed in Hopen. rewrite Hc in Hopen. congruence. }
  assert (responseChanLock (w_req w) = false) as Hl.
  { destruct (responseChanLock (w_req w)) eqn:E; [| done].
    destruct (Hheld eq_refl) as (i & pc & Hi & _). by pose proof (Hno _ _ Hi). }
  split; [| split; [done | split; [done |]]].
  - unfold NewDownstreamRequest. simpl. destruct (w_req w); simpl in *. by subst.
  - intros i v k [e |] Hi; [| by left]. right.
    assert (errors_ok dn (new_chan_id chans) w) as Herr.
    { eapply run_errors_ok; [apply init_Inv | | exact Hrun]. by intros ? ? ? ?. }
    destruct (Herr _ _ _ _ Hi) as [-> | [_ Hcl]]; [done | congruence].
Qed.

Lemma request_stays_open_without_Close_witness :
  no_close_call (sched_two_responses None None) = true
  ∧ run (init "ingest" "store" None ∅ ∅) (sched_two_responses None None)
    = Some (two_responses_world, two_responses_events)
  ∧ w_req two_responses_world = (NewDownstreamRequest "ingest" "store" None ∅).1
  ∧ Response (w_req two_responses_world) = Some (new_chan_id ∅).
Proof.
  assert (run (init "ingest" "store" None ∅ ∅) (sched_two_responses None None)
          = Some (two_responses_world, two_responses_events)) as Hrun
    by (vm_compute; reflexivity).
  split; [reflexivity |]. split; [exact Hrun |].
  destruct (request_stays_open_without_Close "ingest" "store" None ∅ ∅
              (sched_two_responses None None) two_responses_world two_responses_events
              eq_refl Hrun) as (Hreq & _ & Hresp & _).
  by split.
Defined.

(** X5.  What a consumer receives with [ok = true] is the response given
    to a [Respond] call that returned nil, and a [Respond] call returns
    nil only when some consumer has received its response. *)
Theorem delivered_responses_match u dn m chans sigs acts w evs :
  run (init u dn m chans sigs) acts = Some (w, evs) →
  (∀ j v, w_threads w !! j = Some (TReceive (VGot v true)) →
     ∃ i k, w_threads w !! i = Some (TRespond v k (RReturned None)))
  ∧ (∀ i v k, w_threads w !! i = Some (TRespond v k (RReturned None)) →
       ∃ j, w_threads w !! j = Some (TReceive (VGot v true))).
Proof.
  intros Hrun.
  eapply (run_delivered_ok u dn m (new_chan_id chans));
    [apply init_Inv | | exact Hrun].
  split; [intros j v H | intros i v k H]; by simpl in H.
Qed.

Lemma delivered_responses_match_witness :
  run (init "ingest" "store" None ∅ ∅) (sched_two_responses None None)
    = Some (two_responses_world, two_responses_events)
  ∧ ∃ i k, w_threads two_responses_world !! i = Some (TRespond None k (RReturned None)).
Proof.
  assert (run (init "ingest" "store" None ∅ ∅) (sched_two_responses None None)
          = Some (two_responses_world, two_responses_events)) as Hrun
    by (vm_compute; reflexivity).
  split; [exact Hrun |].
  exact (proj1 (delivered_responses_match "ingest" "store" None ∅ ∅
                  (sched_two_responses None None) two_responses_world
                  two_responses_events Hrun) 2 None eq_refl).
Defined.

(** X6.  A [Respond] call waits in its select, a consumer waits to
    receive on the same channel and the channel is open: the hand-off can
    proceed, [Respond] returns nil and the consumer holds exactly the
    response of the call, with [ok = true]; nothing else changes. *)
Theorem Respond_hands_over_its_response
    u dn m chans sigs acts w evs i j v k c :
  run (init u dn m chans sigs) acts = Some (w, evs) →
  w_threads w !! i = Some (TRespond v k (RSelect (Some c))) →
  w_threads w !! j = Some (TReceive (VRecv (Some c))) →
  is_closed c (w_chans w) = false →
  step w (Handoff i j) =
    Some (mkWorld (w_req w) (w_chans w) (w_sigs w)
            (<[j := TReceive (VGot v true)]>
               (<[i := TRespond v k (RReturned None)]> (w_threads w))),
          [EvSend i c v; EvRecv j c v]).
Proof.
  intros Hrun Hi Hj Hopen. pose proof (reach_Inv _ _ _ _ _ _ _ _ Hrun) as HI.
  pose proof HI as [_ _ _ (ch & Hc & _ & Hbuf & _ & _ & Hok) _ _ _].
  pose proof (Hok _ _ Hi) as Hoki. simpl in Hoki. subst c.
  unfold is_closed in Hopen. rewrite Hc in Hopen.
  simpl. unfold step_handoff. rewrite Hi, Hj, Hc, Hopen, Hbuf.
  by rewrite decide_True.
Qed.

Lemma Respond_hands_over_its_response_witness :
  run (init "ingest" "store" None ∅ ∅) (sched_one_response None)
    = Some (rendezvous_world None, [])
  ∧ step (rendezvous_world None) (Handoff 0 1) =
      Some (mkWorld (w_req (rendezvous_world None)) (w_chans (rendezvous_world None))
              (w_sigs (rendezvous_world None))
              (<[1 := TReceive (VGot None true)]>
                 (<[0 := TRespond None None (RReturned None)]>
                    (w_threads (rendezvous_world None)))),
            [EvSend 0 0 None; EvRecv 1 0 None]).
Proof.
  assert (run (init "ingest" "store" None ∅ ∅) (sched_one_response None)
          = Some (rendezvous_world None, [])) as Hrun by (vm_compute; reflexivity).
  split; [exact Hrun |].
  apply (Respond_hands_over_its_response "ingest" "store" None ∅ ∅
           (sched_one_response None) (rendezvous_world None) [] 0 1 None None 0 Hrun);
    vm_compute; reflexivity.
Defined.

(** X7.  A [Respond] call waits in its select on an open request and no
    consumer waits to receive on the channel.  Whatever step is taken,
    the call stays in its select, unless the step is the cancel case of
    its own select: then its cancel channel is not nil and it returns
    "response is canclled".  With a nil cancel channel it cannot
    return. *)
Theorem Respond_waits_for_a_receiver
    u dn m chans sigs acts w evs i v cancel ch c a w' evs' :
  run (init u dn m chans sigs) acts = Some (w, evs) →
  responseChan (w_req w) = Some c →
  is_closed c (w_chans w) = false →
  w_threads w !! i = Some (TRespond v cancel (RSelect ch)) →
  (∀ j, w_threads w !! j ≠ Some (TReceive (VRecv (Some c)))) →
  step w a = Some (w', evs') →
  w_threads w' !! i = Some (TRespond v cancel (RSelect ch))
  ∨ (∃ k, cancel = Some k ∧ (a = Cancel i ∨ a = SigHandoff i)
       ∧ w_threads w' !! i
         = Some (TRespond v cancel (RReturned (Some "response is canclled")))
       ∧ evs' = []).
Proof.
  intros Hrun Hrc Hopen Hi Hnone Hstep.
  pose proof (reach_Inv _ _ _ _ _ _ _ _ Hrun) as HI.
  pose proof HI as [_ _ _ (ch1 & Hch & Hcap & Hbuf & Hrc1 & _ & Hok) _ _ _].
  rewrite Hrc in Hrc1. subst c.
  assert (ch = Some (new_chan_id chans)) as ->.
  { pose proof (Hok _ _ Hi) as Hoki. simpl in Hoki.
    destruct ch as [c |]; [by subst c | congruence]. }
  unfold is_closed in Hopen. rewrite Hch in Hopen.
  assert (i < length (w_threads w)) as Hil by (by eapply lookup_lt_Some).
  destruct (moves a i) eqn:Hm; [| left; by eapply step_others].
  destruct a as [c | i0 | i0 j0 | i0 | i0 | k0 | k0]; simpl in Hm; try done.
  - exfalso. apply bool_decide_eq_true in Hm as ->. simpl in Hstep.
    unfold step_thread in Hstep. rewrite Hi in Hstep. simpl in Hstep.
    rewrite Hch, Hopen, Hbuf, Hcap in Hstep.
    by rewrite decide_False in Hstep by (simpl; lia).
  - exfalso. simpl in Hstep. unfold step_handoff in Hstep.
    apply orb_true_iff in Hm as [->%bool_decide_eq_true | ->%bool_decide_eq_true].
    + rewrite Hi in Hstep.
      destruct (w_threads w !! j0) as [[| | [| [c' |] |]] |] eqn:Hj; try done.
      rewrite Hch in Hstep. case_decide; [| done]. subst c'.
      by destruct (Hnone j0).
    + rewrite Hi in Hstep.
      by destruct (w_threads w !! i0) as [[? ? [| | [] |] | |] |].
  - apply bool_decide_eq_true in Hm as ->. simpl in Hstep.
    unfold step_cancel in Hstep. rewrite Hi in Hstep.
    destruct cancel as [k |]; [| done].
    destruct (w_sigs w !! k) as [s |]; [| done].
    destruct (recv_ready s); [| done]. injection Hstep as <- <-.
    right. exists k. repeat split; [by left |]. simpl.
    by apply list_lookup_insert_eq.
  - apply bool_decide_eq_true in Hm as ->. simpl in Hstep.
    unfold step_sig_handoff in Hstep. rewrite Hi in Hstep.
    destruct cancel as [k |]; [| done].
    destruct (w_sigs w !! k) as [s |]; [| done].
    destruct (recv_ready s); [done |]. injection Hstep as <- <-.
    right. exists k. repeat split; [by right |]. simpl.
    by apply list_lookup_insert_eq.
Qed.

Lemma Respond_waits_for_a_receiver_witness :
  run (init "ingest" "store" None ∅ ∅) sched_waiting = Some (waiting_world, [])
  ∧ step waiting_world (Spawn CallClose) = Some (waiting_beside_close_world, [])
  ∧ (w_threads waiting_beside_close_world !! 0
       = Some (TRespond None None (RSelect (Some 0)))
     ∨ ∃ k, (None : option nat) = Some k ∧ (Spawn CallClose = Cancel 0 ∨ Spawn CallClose = SigHandoff 0)
         ∧ w_threads waiting_beside_close_world !! 0
           = Some (TRespond None None (RReturned (Some "response is canclled")))
         ∧ [] = ([] : list event)).
Proof.
  assert (run (init "ingest" "store" None ∅ ∅) sched_waiting = Some (waiting_world, []))
    as Hrun by (vm_compute; reflexivity).
  assert (step waiting_world (Spawn CallClose) = Some (waiting_beside_close_world, []))
    as Hstep by (vm_compute; reflexivity).
  split; [exact Hrun |]. split; [exact Hstep |].
  refine (Respond_waits_for_a_receiver "ingest" "store" None ∅ ∅ sched_waiting
            waiting_world [] 0 None None (Some 0) 0 (Spawn CallClose)
            waiting_beside_close_world [] Hrun eq_refl _ eq_refl _ Hstep).
  - vm_compute; reflexivity.
  - intros [| j]; vm_compute; [discriminate | by destruct j].
Defined.

(** X8.  Once the channel of the request is closed it stays closed, and
    in no later schedule does a send complete or a consumer receive a
    response: the calls that had returned nil and the consumers that had
    received are the same before and after. *)
Theorem nothing_delivered_after_close u dn m chans sigs acts w evs acts' w' evs' :
  run (init u dn m chans sigs) acts = Some (w, evs) →
  is_closed (new_chan_id chans) (w_chans w) = true →
  run w acts' = Some (w', evs') →
  is_closed (new_chan_id chans) (w_chans w') = true
  ∧ count is_send_ev evs' = 0
  ∧ count is_recv_ev evs' = 0
  ∧ (∀ j, received j w' = received j w)
  ∧ (∀ i, responded i w' = responded i w).
Proof.
  intros Hrun Hcl Hrun'. pose proof (reach_Inv _ _ _ _ _ _ _ _ Hrun) as HI.
  destruct (run_closed_mono _ _ _ _ _ _ _ _ HI Hrun' Hcl) as [Hcl' H0].
  pose proof (run_accounts _ _ _ _ _ _ _ _ HI Hrun') as (_ & _ & Hs & Hr & He).
  assert (count is_recv_ev evs' = 0) as H1 by lia.
  repeat split; try done.
  - intros j. specialize (Hr j).
    rewrite (count_zero_sub is_recv_ev (is_recv_by j)) in Hr; [| by intros [] | done].
    destruct (received j w), (received j w'); simpl in Hr; (done || lia).
  - intros i. specialize (Hs i).
    rewrite (count_zero_sub is_send_ev (is_send_by i)) in Hs; [| by intros [] | done].
    destruct (responded i w), (responded i w'); simpl in Hs; (done || lia).
Qed.

Lemma nothing_delivered_after_close_witness :
  run (init "ingest" "store" None ∅ ∅) (sched_close ++ [Spawn (CallRespond None None)])
    = Some (closed_world, [EvClose 0 0])
  ∧ is_closed (new_chan_id ∅) (w_chans closed_world) = true
  ∧ run closed_world [Step 1] = Some (refused_world, [])
  ∧ is_closed (new_chan_id ∅) (w_chans refused_world) = true
  ∧ count is_send_ev [] = 0.
Proof.
  assert (run (init "ingest" "store" None ∅ ∅)
            (sched_close ++ [Spawn (CallRespond None None)])
          = Some (closed_world, [EvClose 0 0])) as Hrun by (vm_compute; reflexivity).
  assert (is_closed (new_chan_id ∅) (w_chans closed_world) = true) as Hcl
    by (vm_compute; reflexivity).
  assert (run closed_world [Step 1] = Some (refused_world, [])) as Hrun'
    by (vm_compute; reflexivity).
  split; [exact Hrun |]. split; [exact Hcl |]. split; [exact Hrun' |].
  destruct (nothing_delivered_after_close "ingest" "store" None ∅ ∅
              (sched_close ++ [Spawn (CallRespond None None)]) closed_world [EvClose 0 0]
              [Step 1] refused_world [] Hrun Hcl Hrun') as (Hcl' & Hs & _).
  by split.
Defined.

(** X9.  A [Respond] call that returned an error has delivered no
    response, and in no later schedule does it deliver one: it stays
    returned with its error and no send of it ever completes. *)
Theorem failed_Respond_never_delivers
    u dn m chans sigs acts w evs i v k e acts' w' evs' :
  run (init u dn m chans sigs) acts = Some (w, evs) →
  w_threads w !! i = Some (TRespond v k (RReturned (Some e))) →
  run w acts' = Some (w', evs') →
  w_threads w' !! i = Some (TRespond v k (RReturned (Some e)))
  ∧ count (is_send_by i) (evs ++ evs') = 0.
Proof.
  intros Hrun Hi Hrun'.
  assert (w_threads w' !! i = Some (TRespond v k (RReturned (Some e)))) as Hi'.
  { eapply run_stuck; [exact Hrun' | exact Hi | by destruct k]. }
  split; [done |].
  pose proof (reach_Inv _ _ _ _ _ _ _ _ Hrun) as HI.
  pose proof (run_accounts _ _ _ _ _ _ _ _ (init_Inv u dn m chans sigs) Hrun)
    as (_ & _ & Hs & _).
  pose proof (run_accounts _ _ _ _ _ _ _ _ HI Hrun') as (_ & _ & Hs' & _).
  specialize (Hs i). specialize (Hs' i). rewrite count_app.
  unfold responded in *. rewrite Hi in *. rewrite Hi' in Hs'. simpl in *. lia.
Qed.

Lemma failed_Respond_never_delivers_witness :
  run (init "ingest" "store" None ∅ ∅) sched_refused = Some (refused_world, [EvClose 0 0])
  ∧ run refused_world [Spawn CallReceive; Step 2] = Some (refused_later_world, [])
  ∧ w_threads refused_later_world !! 1
      = Some (TRespond None None (RReturned (Some "request from pipeline store was closed")))
  ∧ count (is_send_by 1) ([EvClose 0 0] ++ []) = 0.
Proof.
  assert (run (init "ingest" "store" None ∅ ∅) sched_refused
          = Some (refused_world, [EvClose 0 0])) as Hrun by (vm_compute; reflexivity).
  assert (run refused_world [Spawn CallReceive; Step 2] = Some (refused_later_world, []))
    as Hrun' by (vm_compute; reflexivity).
  split; [exact Hrun |]. split; [exact Hrun' |].
  exact (failed_Respond_never_delivers "ingest" "store" None ∅ ∅ sched_refused
           refused_world [EvClose 0 0] 1 None None _
           [Spawn CallReceive; Step 2] refused_later_world [] Hrun eq_refl Hrun').
Defined.

(** X10.  [Close] never deadlocks: from every world reached, a [Close]
    call that has started returns once the goroutine that holds the lock,
    if any, and then the call itself are run; on its return
    [responseChan] is nil and the channel of the request is closed. *)
Theorem Close_can_always_return u dn m chans sigs acts w evs i pc :
  run (init u dn m chans sigs) acts = Some (w, evs) →
  w_threads w !! i = Some (TClose pc) →
  ∃ h n1 n2 w' evs',
    run w (replicate n1 (Step h) ++ replicate n2 (Step i)) = Some (w', evs')
    ∧ w_threads w' !! i = Some (TClose CReturned)
    ∧ Response (w_req w') = None
    ∧ is_closed (new_chan_id chans) (w_chans w') = true.
Proof.
  intros Hrun Hi. pose proof (reach_Inv _ _ _ _ _ _ _ _ Hrun) as HI.
  assert (∃ h n1 n2 w' evs',
            run w (replicate n1 (Step h) ++ replicate n2 (Step i)) = Some (w', evs')
            ∧ w_threads w' !! i = Some (TClose CReturned)) as (h & n1 & n2 & w' & evs' & Hrun' & Hret).
  { destruct (in_cs pc) eqn:Hin.
    - destruct (cs_finishes _ _ _ _ 5 w i pc ltac:(destruct pc; simpl; lia) HI Hi Hin)
        as (k & w' & evs' & Hrun' & Hret & _).
      by exists i, 0, k, w', evs'.
    - destruct pc; simpl in Hin; try done.
      + destruct (responseChanLock (w_req w)) eqn:Hl.
        * destruct (inv_held _ _ _ _ _ HI Hl) as (h & pch & Hh & Hinh).
          assert (i ≠ h) as Hne by (intros ->; by simplify_eq).
          destruct (cs_finishes _ _ _ _ 5 w h pch ltac:(destruct pch; simpl; lia)
                      HI Hh Hinh) as (k1 & w1 & evs1 & Hrun1 & _ & Hfree & Hoth).
          destruct (lock_then_finish _ _ _ _ w1 i (run_Inv _ _ _ _ _ _ _ _ HI Hrun1)
                      (Hoth _ _ Hne Hi) Hfree) as (k2 & w2 & evs2 & Hrun2 & Hret).
          exists h, k1, k2, w2, (evs1 ++ evs2). split; [| done].
          by eapply run_app.
        * destruct (lock_then_finish _ _ _ _ w i HI Hi Hl) as (k & w' & evs' & Hrun' & Hret).
          by exists i, 0, k, w', evs'.
      + by exists i, 0, 0, w, [].
      + destruct HI as [_ _ _ (ch & _ & _ & _ & _ & _ & Hok) _ _ _].
        by destruct (Hok _ _ Hi). }
  exists h, n1, n2, w', evs'. split; [done |]. split; [done |].
  pose proof (run_Inv _ _ _ _ _ _ _ _ HI Hrun') as HI'.
  pose proof (returned_nil _ _ _ _ _ _ HI' Hret) as Hnil. split; [done |].
  destruct HI' as [_ _ _ (ch & Hch & _ & _ & Hrc & _) _ _ _].
  rewrite Hnil in Hrc. unfold is_closed. by rewrite Hch.
Qed.

Lemma Close_can_always_return_witness :
  run (init "ingest" "store" None ∅ ∅) sched_close_during_select
    = Some (close_during_select_world, [EvClose 1 0])
  ∧ ∃ h n1 n2 w' evs',
      run close_during_select_world (replicate n1 (Step h) ++ replicate n2 (Step 1))
        = Some (w', evs')
      ∧ w_threads w' !! 1 = Some (TClose CReturned)
      ∧ Response (w_req w') = None
      ∧ is_closed (new_chan_id ∅) (w_chans w') = true.
Proof.
  assert (run (init "ingest" "store" None ∅ ∅) sched_close_during_select
          = Some (close_during_select_world, [EvClose 1 0])) as Hrun
    by (vm_compute; reflexivity).
  split; [exact Hrun |].
  exact (Close_can_always_return "ingest" "store" None ∅ ∅ sched_close_during_select
           close_during_select_world [EvClose 1 0] 1 CNil Hrun eq_refl).
Defined.

(** X11.  At most one [Close] call is between its [Lock] and its
    [Unlock] at any time, and the lock is held while one is. *)
Theorem Close_calls_exclude_each_other u dn m chans sigs acts w evs i j pci pcj :
  run (init u dn m chans sigs) acts = Some (w, evs) →
  w_threads w !! i = Some (TClose pci) → in_cs pci = true →
  w_threads w !! j = Some (TClose pcj) → in_cs pcj = true →
  i = j ∧ responseChanLock (w_req w) = true.
Proof.
  intros Hrun Hi Hini Hj Hinj. pose proof (reach_Inv _ _ _ _ _ _ _ _ Hrun) as HI.
  split; [by eapply (inv_mutex _ _ _ _ _ HI) |].
  destruct (responseChanLock (w_req w)) eqn:E; [done |].
  by rewrite (inv_free _ _ _ _ _ HI E _ _ Hi) in Hini.
Qed.

Lemma Close_calls_exclude_each_other_witness :
  run (init "ingest" "store" None ∅ ∅) sched_close_during_select
    = Some (close_during_select_world, [EvClose 1 0])
  ∧ 1 = 1 ∧ responseChanLock (w_req close_during_select_world) = true.
Proof.
  assert (run (init "ingest" "store" None ∅ ∅) sched_close_during_select
          = Some (close_during_select_world, [EvClose 1 0])) as Hrun
    by (vm_compute; reflexivity).
  split; [exact Hrun |].
  exact (Close_calls_exclude_each_other "ingest" "store" None ∅ ∅
           sched_close_during_select close_during_select_world [EvClose 1 0]
           1 1 CNil CNil Hrun eq_refl eq_refl eq_refl eq_refl).
Defined.

(** X12.  The channels the calls on a request touch.  Of the heap of
    response channels, none but the one [NewDownstreamRequest] made for
    the request: every other one is, in every world reached, as it was
    before the constructor ran.  Of the callers' cancel channels, a step
    changes one only when the caller closes it or sends on it, or when
    the select of a [Respond] call that was given this channel takes its
    case [<-cancel], which removes one buffered value and nothing else. *)
Theorem only_own_channels_touched u dn m chans sigs acts w evs :
  run (init u dn m chans sigs) acts = Some (w, evs) →
  (∀ c, c ≠ new_chan_id chans → w_chans w !! c = chans !! c)
  ∧ ∀ a w' evs' k, step w a = Some (w', evs') →
      w_sigs w' !! k ≠ w_sigs w !! k →
      a = SigClose k ∨ a = SigSend k
      ∨ ∃ i v ch s, a = Cancel i
          ∧ w_threads w !! i = Some (TRespond v (Some k) (RSelect ch))
          ∧ w_sigs w !! k = Some s
          ∧ w_sigs w' !! k = Some (set_buf (tail (ch_buf s)) s).
Proof.
  intros Hrun. split.
  - intros c Hne.
    rewrite (run_other_chans _ _ _ _ _ _ _ _ _ (init_Inv u dn m chans sigs) Hrun Hne).
    unfold init, NewDownstreamRequest. simpl. by apply lookup_insert_ne.
  - intros a w' evs' k Hstep Hne.
    destruct (step_sigs _ _ _ _ Hstep)
      as [Hsame | [(k1 & s1 & -> & Hk1 & _ & Hs') | [(k1 & s1 & -> & Hk1 & _ & Hs')
         | (i & v & k1 & ch & s1 & -> & Hi & _ & Hk1 & _ & Hs')]]].
    + by rewrite Hsame in Hne.
    + left. destruct (decide (k1 = k)) as [-> |]; [done |].
      destruct Hne. rewrite Hs'. by apply lookup_insert_ne.
    + right; left. destruct (decide (k1 = k)) as [-> |]; [done |].
      destruct Hne. rewrite Hs'. by apply lookup_insert_ne.
    + right; right. destruct (decide (k1 = k)) as [-> |].
      * exists i, v, ch, s1. repeat split; try done.
        rewrite Hs'. by apply lookup_insert_eq.
      * destruct Hne. rewrite Hs'. by apply lookup_insert_ne.
Qed.

Lemma only_own_channels_touched_witness :
  run (init "ingest" "store" None heap_with_one ∅) sched_close
    = Some (closed_beside_world, [EvClose 0 1])
  ∧ w_chans closed_beside_world !! 0 = heap_with_one !! 0
  ∧ run (init "ingest" "store" None ∅ {[0 := make_chan 1]}) sched_signalled
    = Some (signalled_world, [])
  ∧ step signalled_world (Cancel 0) = Some (signal_taken_world, [])
  ∧ (Cancel 0 = SigClose 0 ∨ Cancel 0 = SigSend 0
     ∨ ∃ i v ch s, Cancel 0 = Cancel i
         ∧ w_threads signalled_world !! i = Some (TRespond v (Some 0) (RSelect ch))
         ∧ w_sigs signalled_world !! 0 = Some s
         ∧ w_sigs signal_taken_world !! 0 = Some (set_buf (tail (ch_buf s)) s)).
Proof.
  assert (run (init "ingest" "store" None heap_with_one ∅) sched_close
          = Some (closed_beside_world, [EvClose 0 1])) as Hrun by (vm_compute; reflexivity).
  assert (0 ≠ new_chan_id heap_with_one) as Hne
    by (intros H; vm_compute in H; discriminate H).
  assert (run (init "ingest" "store" None ∅ {[0 := make_chan 1]}) sched_signalled
          = Some (signalled_world, [])) as Hrun2 by (vm_compute; reflexivity).
  assert (step signalled_world (Cancel 0) = Some (signal_taken_world, [])) as Hstep
    by (vm_compute; reflexivity).
  assert (w_sigs signal_taken_world !! 0 ≠ w_sigs signalled_world !! 0) as Hdiff
    by (intros H; vm_compute in H; discriminate H).
  split; [exact Hrun |]. split.
  - exact (proj1 (only_own_channels_touched "ingest" "store" None heap_with_one ∅
                    sched_close closed_beside_world [EvClose 0 1] Hrun) 0 Hne).
  - split; [exact Hrun2 |]. split; [exact Hstep |].
    exact (proj2 (only_own_channels_touched "ingest" "store" None ∅ {[0 := make_chan 1]}
                    sched_signalled signalled_world [] Hrun2)
             (Cancel 0) signal_taken_world [] 0 Hstep Hdiff).
Defined.

(** X13.  A step that changes the request object is a statement of a
    [Close] call: [Respond], [Response()] and the consumers never write
    it. *)
Theorem only_Close_writes_the_request w a w' evs :
  step w a = Some (w', evs) → w_req w' ≠ w_req w →
  ∃ i pc, a = Step i ∧ w_threads w !! i = Some (TClose pc).
Proof.
  intros Hstep Hne. destruct a as [c | i0 | i0 j0 | i0 | i0 | k | k]; simpl in Hstep.
  - injection Hstep as <- <-. by destruct Hne.
  - unfold step_thread in Hstep.
    destruct (w_threads w !! i0) as [[response cancel pc | pc | pc] |] eqn:H0; [| | | done].
    + destruct (Respond_step _ _ _ _ _) as [[[pc' chans'] evs'] |]; [| done].
      injection Hstep as <- <-. by destruct Hne.
    + by exists i0, pc.
    + destruct (Receive_step _ _ _ _) as [[[pc' chans'] evs'] |]; [| done].
      injection Hstep as <- <-. by destruct Hne.
  - unfold step_handoff in Hstep.
    destruct (w_threads w !! i0) as [[response cancel [| | [c |] |] | |] |]; try done.
    destruct (w_threads w !! j0) as [[| | [| [c' |] |]] |]; try done.
    destruct (w_chans w !! c) as [ch |]; [| done].
    case_decide; [| done]. destruct (ch_closed ch); [done |].
    destruct (ch_buf ch); [| done]. injection Hstep as <- <-. by destruct Hne.
  - unfold step_cancel in Hstep.
    destruct (w_threads w !! i0) as [[response [k |] [| | c |] | |] |]; try done.
    destruct (w_sigs w !! k) as [s |]; [| done].
    destruct (recv_ready s); [| done]. injection Hstep as <- <-. by destruct Hne.
  - unfold step_sig_handoff in Hstep.
    destruct (w_threads w !! i0) as [[response [k |] [| | c |] | |] |]; try done.
    destruct (w_sigs w !! k) as [s |]; [| done].
    destruct (recv_ready s); [done |]. injection Hstep as <- <-. by destruct Hne.
  - unfold step_sig_close in Hstep.
    destruct (w_sigs w !! k) as [s |]; [| done].
    destruct (ch_closed s); [done |]. injection Hstep as <- <-. by destruct Hne.
  - unfold step_sig_send in Hstep.
    destruct (w_sigs w !! k) as [s |]; [| done].
    destruct (ch_closed s); [done |]. case_decide; [| done].
    injection Hstep as <- <-. by destruct Hne.
Qed.

Lemma only_Close_writes_the_request_witness :
  step close_during_select_world (Step 1) = Some (close_nil_world, [])
  ∧ w_req close_nil_world ≠ w_req close_during_select_world
  ∧ ∃ i pc, Step 1 = Step i ∧ w_threads close_during_select_world !! i = Some (TClose pc).
Proof.
  assert (step close_during_select_world (Step 1) = Some (close_nil_world, [])) as Hstep
    by (vm_compute; reflexivity).
  assert (w_req close_nil_world ≠ w_req close_during_select_world) as Hne
    by (intros H; vm_compute in H; discriminate H).
  split; [exact Hstep |]. split; [exact Hne |].
  exact (only_Close_writes_the_request close_during_select_world (Step 1)
           close_nil_world [] Hstep Hne).
Defined.

(** The cancellation error is returned only by a call that was given a
    cancel channel. *)
Lemma step_cancels_ok u dn m c0 w a w' evs :
  Inv u dn m c0 w → cancels_ok w → step w a = Some (w', evs) → cancels_ok w'.
Proof.
  intros HI Hok Hstep i v k Hi'.
  destruct (step_thread_inv _ _ _ _ _ _ _ _ _ _ HI Hstep Hi')
    as [Hi | [(c & _ & _ & Hs) | (t & Hi & Ht)]].
  - by eapply Hok.
  - by destruct c.
  - inversion Ht; subst; done.
Qed.

Lemma run_cancels_ok u dn m c0 acts : ∀ w w' evs,
  Inv u dn m c0 w → cancels_ok w → run w acts = Some (w', evs) → cancels_ok w'.
Proof.
  induction acts as [| a acts IH]; intros w w' evs HI Hok Hrun; simpl in Hrun.
  - by injection Hrun as <- <-.
  - destruct (step w a) as [[w1 evs1] |] eqn:Hs; [| done].
    destruct (run w1 acts) as [[w2 evs2] |] eqn:Hr; [| done].
    injection Hrun as <- <-.
    eapply IH; [by eapply step_Inv | by eapply step_cancels_ok | done].
Qed.

(** X14.  A [Respond] call starts when the channel of the request is
    closed (the close of line 129 took effect, whether or not line 130
    has run).  Run by itself with its select taking the send case it
    returns within three statements with one of the two closed errors,
    sending nothing, with no panic leaving it and without changing the
    request or the channel heap.  Under every schedule, if the call
    returns, it returns an error, never nil: one of the two closed
    errors, or "response is canclled" when it was given a cancel channel;
    and no send of it ever completes. *)
Theorem Respond_on_closed_channel_returns_error
    u dn m chans sigs acts w evs i v k :
  run (init u dn m chans sigs) acts = Some (w, evs) →
  is_closed (new_chan_id chans) (w_chans w) = true →
  w_threads w !! i = Some (TRespond v k RCheck) →
  (∃ n w' evs' e,
     (n ≤ 3)%nat
     ∧ run w (replicate n (Step i)) = Some (w', evs')
     ∧ w_threads w' !! i = Some (TRespond v k (RReturned (Some e)))
     ∧ (e = "request from pipeline " +:+ dn +:+ " was closed"
        ∨ e = "request from pipeline " +:+ dn +:+ " is closed")
     ∧ count is_send_ev evs' = 0 ∧ count is_fault_ev evs' = 0
     ∧ w_req w' = w_req w ∧ w_chans w' = w_chans w)
  ∧ ∀ acts' w' evs' e,
      run w acts' = Some (w', evs') →
      w_threads w' !! i = Some (TRespond v k (RReturned e)) →
      count (is_send_by i) (evs ++ evs') = 0
      ∧ ∃ msg, e = Some msg
          ∧ (msg = "request from pipeline " +:+ dn +:+ " was closed"
             ∨ msg = "request from pipeline " +:+ dn +:+ " is closed"
             ∨ (msg = "response is canclled" ∧ k ≠ None)).
Proof.
  intros Hrun Hcl Hi. pose proof (reach_Inv _ _ _ _ _ _ _ _ Hrun) as HI.
  split.
  - pose proof HI as [_ Hdn _ (ch & Hch & _ & _ & Hrc & _) _ _ _].
    unfold is_closed in Hcl. rewrite Hch in Hcl.
    assert (i < length (w_threads w)) as Hil by (by eapply lookup_lt_Some).
    destruct (responseChan (w_req w)) as [c |] eqn:Hr.
    + subst c.
      exists 3, (mkWorld (w_req w) (w_chans w) (w_sigs w)
                   (<[i := TRespond v k (RReturned (Some (err_is_closed (w_req w))))]>
                      (w_threads w))), [EvRecover i], (err_is_closed (w_req w)).
      split; [lia |]. split.
      { cbn [replicate run step]. unfold step_thread at 1. rewrite Hi. simpl. rewrite Hr.
        unfold step_thread at 1. simpl. rewrite list_lookup_insert_eq by done. simpl.
        rewrite Hr.
        unfold step_thread at 1. simpl.
        rewrite list_lookup_insert_eq by (by rewrite length_insert). simpl.
        rewrite Hch, Hcl. by rewrite !list_insert_insert_eq. }
      split; [simpl; by apply list_lookup_insert_eq |].
      unfold err_is_closed. rewrite Hdn. by repeat split; [right | ..].
    + exists 1, (mkWorld (w_req w) (w_chans w) (w_sigs w)
                   (<[i := TRespond v k (RReturned (Some (err_was_closed (w_req w))))]>
                      (w_threads w))), [], (err_was_closed (w_req w)).
      split; [lia |]. split.
      { cbn [replicate run step]. unfold step_thread. rewrite Hi. simpl. by rewrite Hr. }
      split; [simpl; by apply list_lookup_insert_eq |].
      unfold err_was_closed. rewrite Hdn. by repeat split; [left | ..].
  - intros acts' w' evs' e Hrun' Hi'.
    pose proof (run_accounts _ _ _ _ _ _ _ _ (init_Inv u dn m chans sigs) Hrun)
      as (_ & _ & Hs & _).
    pose proof (run_accounts _ _ _ _ _ _ _ _ HI Hrun') as (_ & _ & Hs' & _).
    destruct (run_closed_mono _ _ _ _ _ _ _ _ HI Hrun' Hcl) as [_ H0].
    specialize (Hs i). specialize (Hs' i).
    rewrite (count_zero_sub is_send_ev (is_send_by i)) in Hs'; [| by intros [] | done].
    unfold responded in Hs, Hs'. rewrite Hi in Hs, Hs'. rewrite Hi' in Hs'.
    simpl in Hs, Hs'.
    split.
    { rewrite count_app.
      rewrite (count_zero_sub is_send_ev (is_send_by i) evs'); [lia | by intros [] | done]. }
    destruct e as [msg |]; [| simpl in Hs'; lia].
    exists msg. split; [done |].
    assert (run (init u dn m chans sigs) (acts ++ acts') = Some (w', evs ++ evs'))
      as Hall by (by eapply run_app).
    assert (errors_ok dn (new_chan_id chans) w') as Herr.
    { eapply run_errors_ok; [apply init_Inv | | exact Hall]. by intros ? ? ? ?. }
    assert (cancels_ok w') as Hcan.
    { eapply run_cancels_ok; [apply init_Inv | | exact Hall]. by intros ? ? ?. }
    destruct (Herr _ _ _ _ Hi') as [-> | [[-> | ->] _]].
    + right; right. split; [done |]. by eapply Hcan.
    + by left.
    + by right; left.
Qed.

Lemma Respond_on_closed_channel_returns_error_witness :
  run (init "ingest" "store" None ∅ ∅)
    (sched_close_during_select ++ [Spawn (CallRespond None None)])
    = Some (close_during_select_beside_world, [EvClose 1 0])
  ∧ ∃ n w' evs' e,
      (n ≤ 3)%nat
      ∧ run close_during_select_beside_world (replicate n (Step 2)) = Some (w', evs')
      ∧ w_threads w' !! 2 = Some (TRespond None None (RReturned (Some e)))
      ∧ (e = "request from pipeline " +:+ "store" +:+ " was closed"
         ∨ e = "request from pipeline " +:+ "store" +:+ " is closed")
      ∧ count is_send_ev evs' = 0 ∧ count is_fault_ev evs' = 0
      ∧ w_req w' = w_req close_during_select_beside_world
      ∧ w_chans w' = w_chans close_during_select_beside_world.
Proof.
  assert (run (init "ingest" "store" None ∅ ∅)
            (sched_close_during_select ++ [Spawn (CallRespond None None)])
          = Some (close_during_select_beside_world, [EvClose 1 0])) as Hrun
    by (vm_compute; reflexivity).
  split; [exact Hrun |].
  refine (proj1 (Respond_on_closed_channel_returns_error "ingest" "store" None ∅ ∅
                   (sched_close_during_select ++ [Spawn (CallRespond None None)])
                   close_during_select_beside_world [EvClose 1 0] 2 None None Hrun _ _));
    vm_compute; reflexivity.
Defined.
